(** * A sequential model of the thread-safe chained hash map (ts_hashmap.c)

    The map is a fixed array of bucket slots, each holding a singly linked
    chain of entries, with two scalar counters.  Every public operation is
    modelled as a computation over the map state that also records the
    sequence of mutex acquisitions and releases it performs, so that both the
    functional behaviour and the locking protocol of a single call can be
    stated. *)

From Stdlib Require Import ZArith List Lia Bool.
From stdpp Require Import base list.
Import ListNotations.

Local Open Scope Z_scope.

(** ** Machine integers *)

Module CInt.

Definition INT_MAX : Z := 2147483647.
Definition INT_MIN : Z := -2147483648.
Definition UINT_MODULUS : Z := 4294967296.

(** The values of type [int]. *)
Definition is_int (x : Z) : Prop := INT_MIN <= x <= INT_MAX.

(** [(unsigned int) x]: conversion to unsigned is reduction modulo 2^32. *)
Definition to_unsigned (x : Z) : Z := x mod UINT_MODULUS.

(** The bit pattern of an [int] read as an unsigned number. *)
Definition reinterpret_unsigned (x : Z) : Z :=
  if x <? 0 then x + UINT_MODULUS else x.

(** [a % b] where [a] is [unsigned int] and [b] is [int]: the usual
    arithmetic conversions turn [b] into [unsigned int] first; a zero
    divisor is undefined. *)
Definition urem (a b : Z) : option Z :=
  let b' := to_unsigned b in
  if b' =? 0 then None else Some (a mod b').

End CInt.
Export CInt.

(** ** Data model *)

(** A pointer to [ts_entry_t]: either [NULL] or an entry with its key, its
    value and the pointer to the next entry of the chain. *)
Inductive chain : Type :=
| NULL : chain
| Entry (key : Z) (value : Z) (next : chain) : chain.

(** Modelled from the spec: the header ts_hashmap.h, which declares
    [ts_hashmap_t], is not among the sources.  The fields are the ones the
    functions use: [table], [numOps], [capacity] and [size]; the two counters
    are counts of operations and of entries, kept here as unbounded integers.
    The lock arrays carry no data: [bucketLocks] has one mutex per slot of
    [table], and [opLock] and [sizeLock] always exist. *)
Record ts_hashmap : Type := mk_map {
  table : list chain;
  numOps : Z;
  capacity : Z;
  size : Z
}.

Definition set_table (m : ts_hashmap) (t : list chain) : ts_hashmap :=
  mk_map t (numOps m) (capacity m) (size m).
Definition set_numOps (m : ts_hashmap) (n : Z) : ts_hashmap :=
  mk_map (table m) n (capacity m) (size m).
Definition set_size (m : ts_hashmap) (n : Z) : ts_hashmap :=
  mk_map (table m) (numOps m) (capacity m) n.

(** The mutexes of a map, and the events a call performs on them. *)
Inductive guard : Type :=
| bucketLock (i : Z)
| sizeLock
| opLock.

Inductive event : Type :=
| Acquire (g : guard)
| Release (g : guard).

Definition guard_eqb (a b : guard) : bool :=
  match a, b with
  | bucketLock i, bucketLock j => i =? j
  | sizeLock, sizeLock => true
  | opLock, opLock => true
  | _, _ => false
  end.

(** ** Computations over the map

    A computation takes the map and either is undefined ([None]: division by
    zero, access outside an array) or yields a result, the new map and the
    lock events it performed, in order. *)

Definition M (A : Type) : Type := ts_hashmap -> option (A * ts_hashmap * list event).

Definition ret {A} (a : A) : M A := fun m => Some (a, m, []).

Definition bind {A B} (c : M A) (k : A -> M B) : M B :=
  fun m =>
    match c m with
    | None => None
    | Some (a, m1, t1) =>
        match k a m1 with
        | None => None
        | Some (b, m2, t2) => Some (b, m2, t1 ++ t2)
        end
    end.

Notation "x <- c ;; k" := (bind c (fun x => k))
  (at level 100, c at next level, right associativity).
Notation "c ;; k" := (bind c (fun _ => k))
  (at level 100, right associativity).

Definition lift {A} (o : option A) : M A :=
  fun m => match o with Some a => Some (a, m, []) | None => None end.

Definition read {A} (f : ts_hashmap -> A) : M A := fun m => Some (f m, m, []).

Definition modify (f : ts_hashmap -> ts_hashmap) : M unit :=
  fun m => Some (tt, f m, []).

(** Does the mutex exist?  [bucketLocks[i]] does for [0 <= i < length table]. *)
Definition guard_exists (m : ts_hashmap) (g : guard) : bool :=
  match g with
  | bucketLock i => (0 <=? i) && (i <? Z.of_nat (length (table m)))
  | sizeLock | opLock => true
  end.

Definition pthread_mutex_lock (g : guard) : M unit :=
  fun m => if guard_exists m g then Some (tt, m, [Acquire g]) else None.

Definition pthread_mutex_unlock (g : guard) : M unit :=
  fun m => if guard_exists m g then Some (tt, m, [Release g]) else None.

(** [map->table[i]] as an rvalue and as an lvalue. *)
Definition load_table (i : Z) : M chain :=
  fun m => if i <? 0 then None
           else match table m !! Z.to_nat i with
                | Some c => Some (c, m, [])
                | None => None
                end.

Definition store_table (i : Z) (c : chain) : M unit :=
  fun m => if i <? 0 then None
           else match table m !! Z.to_nat i with
                | Some _ => Some (tt, set_table m (<[Z.to_nat i := c]> (table m)), [])
                | None => None
                end.

(** ** The operations *)

(** [initmap] returns a pointer to the new map; [None] stands for a null
    pointer, the only way the function could report that it refuses its
    argument.  The counters are zeroed, the capacity is stored as given, and
    the loop [for (i = 0; i < capacity; i++) table[i] = NULL] fills one slot
    per iteration (none when [capacity <= 0]).  The function has no test on
    [capacity] and always returns [map]; allocation is assumed to succeed. *)
Definition initmap (capacity : Z) : option ts_hashmap :=
  Some {| numOps := 0;
          capacity := capacity;
          size := 0;
          table := replicate (Z.to_nat capacity) NULL |}.

(** The scan of [get]: the value of the first entry whose key matches, or the
    initial [returnValue]. *)
Fixpoint get_loop (key : Z) (bucket : chain) (returnValue : Z) : Z :=
  match bucket with
  | NULL => returnValue
  | Entry k v next => if key =? k then v else get_loop key next returnValue
  end.

Definition get (map : ts_hashmap) (key : Z) : option (Z * ts_hashmap * list event) :=
  (cap <- read capacity ;;
   searchIndex <- lift (urem (to_unsigned key) cap) ;;
   pthread_mutex_lock (bucketLock searchIndex) ;;
   bucket <- load_table searchIndex ;;
   let returnValue := get_loop key bucket INT_MAX in
   pthread_mutex_unlock (bucketLock searchIndex) ;;
   pthread_mutex_lock opLock ;;
   modify (fun m => set_numOps m (numOps m + 1)) ;;
   pthread_mutex_unlock opLock ;;
   ret returnValue) map.

(** The [while] loop of [put] on a chain: the chain after the loop, the
    [returnValue] and [madeNewBucket].  The loop replaces the value of the
    first entry with the key, or links a new entry after the last one. *)
Fixpoint put_loop (key value : Z) (bucket : chain) : chain * Z * bool :=
  match bucket with
  | NULL => (NULL, INT_MAX, false)
  | Entry k v next =>
      if key =? k then (Entry k value next, v, false)
      else
        match next with
        | NULL => (Entry k v (Entry key value NULL), INT_MAX, true)
        | Entry _ _ _ =>
            let '(next', returnValue, madeNewBucket) := put_loop key value next in
            (Entry k v next', returnValue, madeNewBucket)
        end
  end.

Definition put (map : ts_hashmap) (key value : Z)
  : option (Z * ts_hashmap * list event) :=
  (cap <- read capacity ;;
   searchIndex <- lift (urem (to_unsigned key) cap) ;;
   pthread_mutex_lock (bucketLock searchIndex) ;;
   bucket <- load_table searchIndex ;;
   r <- match bucket with
        | NULL =>
            store_table searchIndex (Entry key value NULL) ;;
            ret (INT_MAX, true)
        | Entry _ _ _ =>
            let '(bucket', returnValue, madeNewBucket) := put_loop key value bucket in
            store_table searchIndex bucket' ;;
            ret (returnValue, madeNewBucket)
        end ;;
   let '(returnValue, madeNewBucket) := r in
   pthread_mutex_unlock (bucketLock searchIndex) ;;
   (if madeNewBucket : bool then
      pthread_mutex_lock sizeLock ;;
      modify (fun m => set_size m (size m + 1)) ;;
      pthread_mutex_unlock sizeLock
    else ret tt) ;;
   pthread_mutex_lock opLock ;;
   modify (fun m => set_numOps m (numOps m + 1)) ;;
   pthread_mutex_unlock opLock ;;
   ret returnValue) map.

(** The look-ahead loop of [del], entered with a non-null [bucket] whose own
    key did not match: the chain after the loop, the [returnValue] and
    [bucketWasDeleted]. *)
Fixpoint del_loop (key : Z) (bucket : chain) : chain * Z * bool :=
  match bucket with
  | NULL => (NULL, INT_MAX, false)
  | Entry k v next =>
      match next with
      | NULL => (Entry k v NULL, INT_MAX, false)
      | Entry k' v' next' =>
          if key =? k' then (Entry k v next', v', true)
          else
            let '(next1, returnValue, bucketWasDeleted) := del_loop key next in
            (Entry k v next1, returnValue, bucketWasDeleted)
      end
  end.

Definition del (map : ts_hashmap) (key : Z) : option (Z * ts_hashmap * list event) :=
  (cap <- read capacity ;;
   searchIndex <- lift (urem (to_unsigned key) cap) ;;
   pthread_mutex_lock opLock ;;
   modify (fun m => set_numOps m (numOps m + 1)) ;;
   pthread_mutex_unlock opLock ;;
   pthread_mutex_lock (bucketLock searchIndex) ;;
   bucket <- load_table searchIndex ;;
   match bucket with
   | NULL =>
       pthread_mutex_unlock (bucketLock searchIndex) ;;
       ret INT_MAX
   | Entry k v next =>
       if k =? key then
         match next with
         | NULL => store_table searchIndex NULL
         | Entry _ _ _ => store_table searchIndex next
         end ;;
         pthread_mutex_unlock (bucketLock searchIndex) ;;
         pthread_mutex_lock sizeLock ;;
         modify (fun m => set_size m (size m - 1)) ;;
         pthread_mutex_unlock sizeLock ;;
         ret v
       else
         let '(bucket', returnValue, bucketWasDeleted) := del_loop key bucket in
         store_table searchIndex bucket' ;;
         (if bucketWasDeleted : bool then
            pthread_mutex_lock sizeLock ;;
            modify (fun m => set_size m (size m - 1)) ;;
            pthread_mutex_unlock sizeLock
          else ret tt) ;;
         pthread_mutex_unlock (bucketLock searchIndex) ;;
         ret returnValue
   end) map.

(** ** Sequences of calls *)

Inductive op : Type :=
| Get (key : Z)
| Put (key value : Z)
| Del (key : Z).

Definition call (map : ts_hashmap) (o : op) : option (Z * ts_hashmap * list event) :=
  match o with
  | Get key => get map key
  | Put key value => put map key value
  | Del key => del map key
  end.

(** Runs the calls one after the other; undefined as soon as one call is. *)
Fixpoint run (map : ts_hashmap) (ops : list op) : option ts_hashmap :=
  match ops with
  | [] => Some map
  | o :: rest =>
      match call map o with
      | Some (_, map', _) => run map' rest
      | None => None
      end
  end.

(** The maps that [initmap] followed by calls of [get], [put] and [del] can
    produce, for a capacity that is a positive [int]. *)
Inductive reachable : ts_hashmap -> Prop :=
| reach_init (c : Z) (m : ts_hashmap) :
    1 <= c <= INT_MAX -> initmap c = Some m -> reachable m
| reach_call (m : ts_hashmap) (o : op) (r : Z) (m' : ts_hashmap) (t : list event) :
    reachable m -> call m o = Some (r, m', t) -> reachable m'.

(** ** Vocabulary of the properties *)

(** The keys of a chain, from its head on. *)
Fixpoint keys (c : chain) : list Z :=
  match c with
  | NULL => []
  | Entry k _ next => k :: keys next
  end.

(** The number of entries reachable from a chain head. *)
Fixpoint chain_length (c : chain) : Z :=
  match c with
  | NULL => 0
  | Entry _ _ next => 1 + chain_length next
  end.

(** The number of entries reachable from all the buckets. *)
Fixpoint total_entries (t : list chain) : Z :=
  match t with
  | [] => 0
  | c :: rest => chain_length c + total_entries rest
  end.

(** All the keys stored in the map, bucket after bucket. *)
Definition stored_keys (m : ts_hashmap) : list Z :=
  concat (List.map keys (table m)).

(** The index the three operations compute for a key. *)
Definition bucket_index (m : ts_hashmap) (key : Z) : Z :=
  to_unsigned key mod capacity m.

(** The chain of the bucket of a key. *)
Definition slot (m : ts_hashmap) (key : Z) : chain :=
  default NULL (table m !! Z.to_nat (bucket_index m key)).

(** The capacity is a positive [int] and the table has that many slots. *)
Definition shape (m : ts_hashmap) : Prop :=
  1 <= capacity m <= INT_MAX /\ Z.of_nat (length (table m)) = capacity m.

(** Every chain holds only keys of its own bucket, each at most once. *)
Definition chains_ok (m : ts_hashmap) : Prop :=
  forall (i : nat) (c : chain),
    table m !! i = Some c ->
    List.NoDup (keys c) /\
    forall k, In k (keys c) -> bucket_index m k = Z.of_nat i.

Definition invariant (m : ts_hashmap) : Prop :=
  shape m /\ chains_ok m /\ size m = total_entries (table m).

(** *** Lock discipline of a trace *)

Definition apply_event (held : list guard) (e : event) : list guard :=
  match e with
  | Acquire g => g :: held
  | Release g => List.filter (fun h => negb (guard_eqb g h)) held
  end.

(** The largest number of guards held at once while the trace runs, starting
    with [held]. *)
Fixpoint max_held (held : list guard) (t : list event) : nat :=
  match t with
  | [] => length held
  | e :: rest => Nat.max (length held) (max_held (apply_event held e) rest)
  end.

Definition one_guard_at_a_time (t : list event) : bool :=
  (max_held [] t <=? 1)%nat.

(** The bucket indices whose guard the trace acquires, in order. *)
Fixpoint locked_buckets (t : list event) : list Z :=
  match t with
  | [] => []
  | Acquire (bucketLock i) :: rest => i :: locked_buckets rest
  | _ :: rest => locked_buckets rest
  end.

(** The chain-level effect of [put] and [del] on the bucket of the key. *)
Definition put_chain (key value : Z) (bucket : chain) : chain * Z * bool :=
  match bucket with
  | NULL => (Entry key value NULL, INT_MAX, true)
  | Entry _ _ _ => put_loop key value bucket
  end.

Definition del_chain (key : Z) (bucket : chain) : chain * Z * bool :=
  match bucket with
  | NULL => (NULL, INT_MAX, false)
  | Entry k v next =>
      if k =? key then (next, v, true) else del_loop key bucket
  end.

(** *** What a call computes on a well-shaped map

    The result, the map and the trace that [put] and [del] are shown below to
    produce when the capacity is positive and the table has that many
    slots. *)

Definition bucket_trace (i : Z) : list event :=
  [Acquire (bucketLock i); Release (bucketLock i)].
Definition size_trace (changed : bool) : list event :=
  if changed then [Acquire sizeLock; Release sizeLock] else [].
Definition op_trace : list event := [Acquire opLock; Release opLock].

Definition put_result (m : ts_hashmap) (key value : Z) : Z * ts_hashmap * list event :=
  let i := bucket_index m key in
  let '(c', r, made) := put_chain key value (slot m key) in
  (r,
   mk_map (<[Z.to_nat i := c']> (table m)) (numOps m + 1) (capacity m)
          (if made then size m + 1 else size m),
   bucket_trace i ++ size_trace made ++ op_trace).

Definition del_trace (i : Z) (key : Z) (bucket : chain) (deleted : bool) : list event :=
  match bucket with
  | NULL => op_trace ++ bucket_trace i
  | Entry k _ _ =>
      if k =? key then op_trace ++ bucket_trace i ++ size_trace true
      else op_trace ++ [Acquire (bucketLock i)] ++ size_trace deleted
                    ++ [Release (bucketLock i)]
  end.

Definition del_result (m : ts_hashmap) (key : Z) : Z * ts_hashmap * list event :=
  let i := bucket_index m key in
  let '(c', r, deleted) := del_chain key (slot m key) in
  (r,
   mk_map (<[Z.to_nat i := c']> (table m)) (numOps m + 1) (capacity m)
          (if deleted then size m - 1 else size m),
   del_trace i key (slot m key) deleted).

(** ** Diagnostics and teardown *)

(** The four [printf] calls of [printmap], with their arguments. *)
Inductive printf_call : Type :=
| print_index (i : Z)
| print_entry (key value : Z)
| print_arrow
| print_newline.

(** The [while] loop of [printmap] on one chain: each entry, followed by an
    arrow when it has a successor. *)
Fixpoint print_chain (entry : chain) : list printf_call :=
  match entry with
  | NULL => []
  | Entry k v next =>
      print_entry k v ::
      match next with
      | NULL => []
      | Entry _ _ _ => [print_arrow]
      end ++ print_chain next
  end.

(** The [for] loop of [printmap] from index [i], with [n] iterations left;
    undefined when [table[i]] is outside the table. *)
Fixpoint printmap_from (map : ts_hashmap) (i : Z) (n : nat)
  : option (list printf_call) :=
  match n with
  | O => Some []
  | S n' =>
      match table map !! Z.to_nat i with
      | None => None
      | Some entry =>
          match printmap_from map (i + 1) n' with
          | None => None
          | Some rest =>
              Some (print_index i :: print_chain entry ++ print_newline :: rest)
          end
      end
  end.

(** [printmap]: the loop runs for [i] from 0 while [i < capacity]. *)
Definition printmap (map : ts_hashmap) : option (list printf_call) :=
  printmap_from map 0 (Z.to_nat (capacity map)).

(** What [freeMap] releases: the entries, the mutex objects, the two arrays
    and the map itself. *)
Inductive resource : Type :=
| entry_block (key value : Z)
| mutex_block (g : guard)
| table_block
| bucketLocks_block
| map_block.

Inductive mem_event : Type :=
| Free (r : resource)
| MutexDestroy (g : guard).

(** [freeChain]: reads [entry->next] first, which is undefined on a null
    pointer; frees the rest of the chain, then the entry itself. *)
Fixpoint freeChain (entry : chain) : option (list mem_event) :=
  match entry with
  | NULL => None
  | Entry k v next =>
      match next with
      | NULL => Some [Free (entry_block k v)]
      | Entry _ _ _ =>
          match freeChain next with
          | None => None
          | Some t => Some (t ++ [Free (entry_block k v)])
          end
      end
  end.

(** The [for] loop of [freeMap] from index [i], with [n] iterations left. *)
Fixpoint freeMap_from (map : ts_hashmap) (i : Z) (n : nat)
  : option (list mem_event) :=
  match n with
  | O => Some []
  | S n' =>
      match table map !! Z.to_nat i with
      | None => None
      | Some entry =>
          match (match entry with
                 | NULL => Some []
                 | Entry _ _ _ => freeChain entry
                 end) with
          | None => None
          | Some t =>
              match freeMap_from map (i + 1) n' with
              | None => None
              | Some rest =>
                  Some (t ++ MutexDestroy (bucketLock i)
                          :: Free (mutex_block (bucketLock i)) :: rest)
              end
          end
      end
  end.

Definition freeMap (map : ts_hashmap) : option (list mem_event) :=
  match freeMap_from map 0 (Z.to_nat (capacity map)) with
  | None => None
  | Some rows =>
      Some (rows ++ [Free table_block; Free bucketLocks_block;
                     MutexDestroy opLock; MutexDestroy sizeLock;
                     Free (mutex_block opLock); Free (mutex_block sizeLock);
                     Free map_block])
  end.

(** *** Vocabulary for the entries, the output and the releases *)

(** The key-value pairs of a chain, from its head on. *)
Fixpoint entries (c : chain) : list (Z * Z) :=
  match c with
  | NULL => []
  | Entry k v next => (k, v) :: entries next
  end.

(** All the pairs stored in the map, bucket after bucket. *)
Definition stored_entries (m : ts_hashmap) : list (Z * Z) :=
  concat (List.map entries (table m)).

(** The guards still held once the trace has run, starting with [held]. *)
Definition held_after (held : list guard) (t : list event) : list guard :=
  fold_left apply_event t held.

(** The rows [printmap] prints for the slots [t], numbered from [i]. *)
Fixpoint print_table (t : list chain) (i : Z) : list printf_call :=
  match t with
  | [] => []
  | c :: rest =>
      print_index i :: print_chain c ++ print_newline :: print_table rest (i + 1)
  end.

Fixpoint printed_entries (out : list printf_call) : list (Z * Z) :=
  match out with
  | [] => []
  | print_entry k v :: rest => (k, v) :: printed_entries rest
  | _ :: rest => printed_entries rest
  end.

Fixpoint printed_indices (out : list printf_call) : list Z :=
  match out with
  | [] => []
  | print_index i :: rest => i :: printed_indices rest
  | _ :: rest => printed_indices rest
  end.

Fixpoint printed_newlines (out : list printf_call) : Z :=
  match out with
  | [] => 0
  | print_newline :: rest => 1 + printed_newlines rest
  | _ :: rest => printed_newlines rest
  end.

Fixpoint freed_entries (t : list mem_event) : list (Z * Z) :=
  match t with
  | [] => []
  | Free (entry_block k v) :: rest => (k, v) :: freed_entries rest
  | _ :: rest => freed_entries rest
  end.

Fixpoint destroyed_mutexes (t : list mem_event) : list guard :=
  match t with
  | [] => []
  | MutexDestroy g :: rest => g :: destroyed_mutexes rest
  | _ :: rest => destroyed_mutexes rest
  end.

Fixpoint freed_mutexes (t : list mem_event) : list guard :=
  match t with
  | [] => []
  | Free (mutex_block g) :: rest => g :: freed_mutexes rest
  | _ :: rest => freed_mutexes rest
  end.

(** The release of an entry, by its contents. *)
Definition free_entry (e : Z * Z) : mem_event := Free (entry_block e.1 e.2).

(** What [freeMap] releases for the slots [t], numbered from [i]: the
    entries of each chain from the last to the first, then the mutex of the
    bucket. *)
Fixpoint free_table (t : list chain) (i : Z) : list mem_event :=
  match t with
  | [] => []
  | c :: rest =>
      List.map free_entry (rev (entries c))
      ++ MutexDestroy (bucketLock i) :: Free (mutex_block (bucketLock i))
      :: free_table rest (i + 1)
  end.

(** The guards of a map of the given capacity, in the order of [freeMap]. *)
Definition all_guards (capacity : Z) : list guard :=
  List.map bucketLock (seqZ 0 capacity) ++ [opLock; sizeLock].

(** * Properties *)

(** ** Index arithmetic *)

Section Index.

Variable m : ts_hashmap.
Hypothesis Hshape : shape m.

Lemma capacity_unsigned : to_unsigned (capacity m) = capacity m.
Proof.
  destruct Hshape as [[Hlo Hhi] _]. unfold to_unsigned, UINT_MODULUS.
  unfold INT_MAX in Hhi. apply Z.mod_small. lia.
Qed.

Lemma bucket_index_range (key : Z) : 0 <= bucket_index m key < capacity m.
Proof.
  destruct Hshape as [[Hlo _] _]. unfold bucket_index.
  apply Z.mod_pos_bound. lia.
Qed.

Lemma urem_shape (key : Z) :
  urem (to_unsigned key) (capacity m) = Some (bucket_index m key).
Proof.
  unfold urem. rewrite capacity_unsigned.
  destruct Hshape as [[Hlo _] _].
  destruct (capacity m =? 0) eqn:E; [apply Z.eqb_eq in E; lia | reflexivity].
Qed.

Lemma bucket_index_lt_length (key : Z) :
  (Z.to_nat (bucket_index m key) < length (table m))%nat.
Proof.
  pose proof (bucket_index_range key) as Hr.
  destruct Hshape as [_ Hlen]. lia.
Qed.

Lemma slot_lookup (key : Z) :
  table m !! Z.to_nat (bucket_index m key) = Some (slot m key).
Proof.
  unfold slot.
  destruct (lookup_lt_is_Some_2 _ _ (bucket_index_lt_length key)) as [c Hc].
  rewrite Hc. reflexivity.
Qed.

Lemma bucket_in_range (key : Z) :
  (0 <=? bucket_index m key)
  && (bucket_index m key <? Z.of_nat (length (table m))) = true.
Proof.
  pose proof (bucket_index_range key) as Hr.
  destruct Hshape as [_ Hlen].
  apply andb_true_iff. split; [apply Z.leb_le | apply Z.ltb_lt]; lia.
Qed.

Lemma bucket_index_nonneg (key : Z) : (bucket_index m key <? 0) = false.
Proof. pose proof (bucket_index_range key). apply Z.ltb_ge. lia. Qed.

End Index.

(** ** What each call computes on a well-shaped map *)

(** Unfolds the computation of a call on the well-shaped map [m] and
    evaluates the steps whose outcome the shape determines. *)
Ltac run_call m Hs :=
  unfold bind, read, lift;
  rewrite ?(urem_shape m Hs);
  unfold pthread_mutex_lock, pthread_mutex_unlock, load_table, store_table,
    modify, ret;
  repeat (progress (cbn [guard_exists table numOps capacity size
                           set_table set_numOps set_size];
                    cbv beta iota;
                    rewrite ?length_insert, ?(bucket_in_range m Hs),
                      ?(bucket_index_nonneg m Hs), ?(slot_lookup m Hs))).

Lemma get_eq (m : ts_hashmap) (key : Z) :
  shape m ->
  get m key =
    Some (get_loop key (slot m key) INT_MAX,
          set_numOps m (numOps m + 1),
          bucket_trace (bucket_index m key) ++ op_trace).
Proof.
  intros Hs. unfold get. run_call m Hs. reflexivity.
Qed.

Lemma put_eq (m : ts_hashmap) (key value : Z) :
  shape m -> put m key value = Some (put_result m key value).
Proof.
  intros Hs. unfold put, put_result. run_call m Hs.
  destruct (slot m key) as [|k v next] eqn:Hslot.
  - run_call m Hs. reflexivity.
  - unfold put_chain. destruct (put_loop key value (Entry k v next)) as [[c' r] made].
    destruct made; run_call m Hs; reflexivity.
Qed.

Lemma del_eq (m : ts_hashmap) (key : Z) :
  shape m -> del m key = Some (del_result m key).
Proof.
  intros Hs. unfold del, del_result. run_call m Hs.
  destruct (slot m key) as [|k v next] eqn:Hslot.
  - run_call m Hs. simpl.
    rewrite list_insert_id; [reflexivity|]. rewrite <- Hslot. apply (slot_lookup m Hs).
  - unfold del_chain, del_trace. destruct (k =? key) eqn:Hk.
    + destruct next; run_call m Hs; reflexivity.
    + destruct (del_loop key (Entry k v next)) as [[c' r] deleted].
      destruct deleted; run_call m Hs; reflexivity.
Qed.

(** ** The loops, chain by chain *)

Lemma put_chain_Entry (key value k v : Z) (next : chain) :
  put_chain key value (Entry k v next) =
    if key =? k then (Entry k value next, v, false)
    else let '(next', r, made) := put_chain key value next in
         (Entry k v next', r, made).
Proof. simpl. destruct (key =? k); [|destruct next]; reflexivity. Qed.

Lemma del_chain_Entry (key k v : Z) (next : chain) :
  del_chain key (Entry k v next) =
    if k =? key then (next, v, true)
    else let '(next', r, deleted) := del_chain key next in
         (Entry k v next', r, deleted).
Proof.
  simpl. destruct (k =? key); [reflexivity|].
  destruct next as [|k' v' next']; [reflexivity|].
  rewrite (Z.eqb_sym key k'). unfold del_chain.
  destruct (k' =? key); reflexivity.
Qed.

Lemma get_loop_absent (key d : Z) (c : chain) :
  ~ In key (keys c) -> get_loop key c d = d.
Proof.
  induction c as [|k v next IH]; simpl; intros Hn; [reflexivity|].
  destruct (Z.eqb_spec key k) as [->|Hne]; [tauto|]. apply IH. tauto.
Qed.

(** [put] returns what [get] would have returned just before. *)
Lemma put_chain_returns (key value : Z) (c : chain) :
  (put_chain key value c).1.2 = get_loop key c INT_MAX.
Proof.
  induction c as [|k v next IH]; [reflexivity|].
  rewrite put_chain_Entry. simpl get_loop.
  destruct (key =? k); [reflexivity|].
  destruct (put_chain key value next) as [[n r] made]. exact IH.
Qed.

Lemma put_chain_get (key value d : Z) (c : chain) :
  get_loop key (put_chain key value c).1.1 d = value.
Proof.
  induction c as [|k v next IH].
  - simpl. rewrite Z.eqb_refl. reflexivity.
  - rewrite put_chain_Entry. destruct (key =? k) eqn:E.
    + simpl. rewrite E. reflexivity.
    + destruct (put_chain key value next) as [[n r] made].
      simpl in *. rewrite E. exact IH.
Qed.

Lemma put_chain_other (key value key' d : Z) (c : chain) :
  key' <> key ->
  get_loop key' (put_chain key value c).1.1 d = get_loop key' c d.
Proof.
  intros Hne. induction c as [|k v next IH].
  - simpl. destruct (Z.eqb_spec key' key); [contradiction | reflexivity].
  - rewrite put_chain_Entry. destruct (Z.eqb_spec key k) as [->|Hk].
    + simpl. destruct (Z.eqb_spec key' k); [contradiction | reflexivity].
    + destruct (put_chain key value next) as [[n r] made].
      simpl in *. rewrite IH. reflexivity.
Qed.

(** A key already present is overwritten in place. *)
Lemma put_chain_present (key value : Z) (c : chain) :
  In key (keys c) ->
  (put_chain key value c).2 = false /\
  keys (put_chain key value c).1.1 = keys c /\
  chain_length (put_chain key value c).1.1 = chain_length c.
Proof.
  induction c as [|k v next IH]; [intros []|].
  intros Hin. rewrite put_chain_Entry.
  destruct (Z.eqb_spec key k) as [->|Hk]; [simpl; auto|].
  destruct Hin as [Heq|Hin]; [congruence|].
  specialize (IH Hin).
  destruct (put_chain key value next) as [[n r] made].
  simpl in *. destruct IH as (-> & -> & ->). auto.
Qed.

(** A new key is linked after the last entry. *)
Lemma put_chain_absent (key value : Z) (c : chain) :
  ~ In key (keys c) ->
  (put_chain key value c).2 = true /\
  keys (put_chain key value c).1.1 = keys c ++ [key] /\
  chain_length (put_chain key value c).1.1 = chain_length c + 1.
Proof.
  induction c as [|k v next IH]; [intros _; simpl; auto|].
  intros Hn. rewrite put_chain_Entry.
  destruct (Z.eqb_spec key k) as [->|Hk]; [simpl in Hn; tauto|].
  assert (Hn' : ~ In key (keys next)) by (simpl in Hn; tauto).
  specialize (IH Hn').
  destruct (put_chain key value next) as [[n r] made].
  simpl in *. destruct IH as (-> & -> & ->). repeat split; lia.
Qed.

Lemma del_chain_absent (key : Z) (c : chain) :
  ~ In key (keys c) -> del_chain key c = (c, INT_MAX, false).
Proof.
  induction c as [|k v next IH]; [reflexivity|].
  intros Hn. rewrite del_chain_Entry.
  destruct (Z.eqb_spec k key) as [->|Hk]; [simpl in Hn; tauto|].
  rewrite IH; [reflexivity | simpl in Hn; tauto].
Qed.

(** [del] unlinks the first entry with the key and returns its value. *)
Lemma del_chain_present (key : Z) (c : chain) :
  In key (keys c) ->
  (del_chain key c).2 = true /\
  (del_chain key c).1.2 = get_loop key c INT_MAX /\
  chain_length (del_chain key c).1.1 = chain_length c - 1.
Proof.
  induction c as [|k v next IH]; [intros []|].
  intros Hin. rewrite del_chain_Entry. simpl get_loop.
  rewrite (Z.eqb_sym key k).
  destruct (Z.eqb_spec k key) as [->|Hk]; [simpl; repeat split; lia|].
  destruct Hin as [Heq|Hin]; [congruence|].
  specialize (IH Hin).
  destruct (del_chain key next) as [[n r] deleted].
  simpl in *. destruct IH as (-> & -> & ->). repeat split; lia.
Qed.

Lemma del_chain_keys_incl (key x : Z) (c : chain) :
  In x (keys (del_chain key c).1.1) -> In x (keys c).
Proof.
  induction c as [|k v next IH]; [intros []|].
  rewrite del_chain_Entry.
  destruct (k =? key); [simpl; auto|].
  destruct (del_chain key next) as [[n r] deleted].
  simpl in *. tauto.
Qed.

Lemma del_chain_NoDup (key : Z) (c : chain) :
  List.NoDup (keys c) ->
  List.NoDup (keys (del_chain key c).1.1) /\
  ~ In key (keys (del_chain key c).1.1).
Proof.
  induction c as [|k v next IH]; [simpl; split; [constructor | tauto]|].
  intros Hnd. simpl in Hnd. apply List.NoDup_cons_iff in Hnd. destruct Hnd as [Hk Hnext].
  rewrite del_chain_Entry.
  destruct (Z.eqb_spec k key) as [->|Hne]; [simpl; auto|].
  specialize (IH Hnext).
  pose proof (del_chain_keys_incl key k next) as Hincl.
  destruct (del_chain key next) as [[n r] deleted].
  simpl in *. destruct IH as [IH1 IH2]. split.
  - apply List.NoDup_cons_iff. tauto.
  - intros [Heq|Hin]; [congruence | tauto].
Qed.

(** ** The map after a call *)

Lemma shape_update (m : ts_hashmap) (i : nat) (c : chain) (n s : Z) :
  shape m -> shape (mk_map (<[i := c]> (table m)) n (capacity m) s).
Proof. intros [Hc Hl]. split; simpl; [exact Hc | rewrite length_insert; exact Hl]. Qed.

Lemma slot_update (m : ts_hashmap) (key : Z) (c : chain) (n s : Z) :
  shape m ->
  slot (mk_map (<[Z.to_nat (bucket_index m key) := c]> (table m)) n (capacity m) s) key = c.
Proof.
  intros Hs. unfold slot, bucket_index. simpl.
  rewrite list_lookup_insert_eq; [reflexivity|].
  apply (bucket_index_lt_length m Hs).
Qed.

Lemma put_result_shape (m : ts_hashmap) (key value : Z) :
  shape m -> shape (put_result m key value).1.2.
Proof.
  intros Hs. unfold put_result.
  destruct (put_chain key value (slot m key)) as [[c' r] made].
  apply shape_update, Hs.
Qed.

Lemma del_result_shape (m : ts_hashmap) (key : Z) :
  shape m -> shape (del_result m key).1.2.
Proof.
  intros Hs. unfold del_result.
  destruct (del_chain key (slot m key)) as [[c' r] deleted].
  apply shape_update, Hs.
Qed.

Lemma put_result_slot (m : ts_hashmap) (key value : Z) :
  shape m ->
  slot (put_result m key value).1.2 key = (put_chain key value (slot m key)).1.1.
Proof.
  intros Hs. unfold put_result.
  destruct (put_chain key value (slot m key)) as [[c' r] made].
  apply slot_update, Hs.
Qed.

Lemma del_result_slot (m : ts_hashmap) (key : Z) :
  shape m ->
  slot (del_result m key).1.2 key = (del_chain key (slot m key)).1.1.
Proof.
  intros Hs. unfold del_result.
  destruct (del_chain key (slot m key)) as [[c' r] deleted].
  apply slot_update, Hs.
Qed.

Lemma put_result_size (m : ts_hashmap) (key value : Z) :
  size (put_result m key value).1.2 =
    if (put_chain key value (slot m key)).2 then size m + 1 else size m.
Proof.
  unfold put_result.
  destruct (put_chain key value (slot m key)) as [[c' r] made]. reflexivity.
Qed.

Lemma put_result_value (m : ts_hashmap) (key value : Z) :
  (put_result m key value).1.1 = get_loop key (slot m key) INT_MAX.
Proof.
  unfold put_result. rewrite <- (put_chain_returns key value).
  destruct (put_chain key value (slot m key)) as [[c' r] made]. reflexivity.
Qed.

Lemma put_result_table (m : ts_hashmap) (key value : Z) :
  table (put_result m key value).1.2 =
    <[Z.to_nat (bucket_index m key) := (put_chain key value (slot m key)).1.1]> (table m).
Proof.
  unfold put_result.
  destruct (put_chain key value (slot m key)) as [[c' r] made]. reflexivity.
Qed.

Lemma del_result_size (m : ts_hashmap) (key : Z) :
  size (del_result m key).1.2 =
    if (del_chain key (slot m key)).2 then size m - 1 else size m.
Proof.
  unfold del_result.
  destruct (del_chain key (slot m key)) as [[c' r] deleted]. reflexivity.
Qed.

Lemma del_result_value (m : ts_hashmap) (key : Z) :
  (del_result m key).1.1 = (del_chain key (slot m key)).1.2.
Proof.
  unfold del_result.
  destruct (del_chain key (slot m key)) as [[c' r] deleted]. reflexivity.
Qed.

Lemma del_result_table (m : ts_hashmap) (key : Z) :
  table (del_result m key).1.2 =
    <[Z.to_nat (bucket_index m key) := (del_chain key (slot m key)).1.1]> (table m).
Proof.
  unfold del_result.
  destruct (del_chain key (slot m key)) as [[c' r] deleted]. reflexivity.
Qed.

(** The key is in the chain of its bucket once it has been put. *)
Lemma put_chain_In (key value : Z) (c : chain) :
  In key (keys (put_chain key value c).1.1).
Proof.
  destruct (in_dec Z.eq_dec key (keys c)) as [Hin|Hn].
  - destruct (put_chain_present key value c Hin) as (_ & -> & _). exact Hin.
  - destruct (put_chain_absent key value c Hn) as (_ & -> & _).
    apply in_or_app. right. left. reflexivity.
Qed.

(** ** Round trip, replacement, deletion *)

(** C1: on a map with a positive capacity and its table, for every key [k]
    and value [v], [put(map, k, v)] is defined and [get(map, k)] on the map it
    leaves returns [v], whatever the chain of the bucket held before. *)
Theorem put_then_get_returns_value (m : ts_hashmap) (k v : Z) :
  shape m ->
  exists old m1 t1 m2 t2,
    put m k v = Some (old, m1, t1) /\ get m1 k = Some (v, m2, t2).
Proof.
  intros Hs. pose proof (put_eq m k v Hs) as Hput.
  destruct (put_result m k v) as [[old m1] t1] eqn:Hr.
  assert (Hs1 : shape m1).
  { pose proof (put_result_shape m k v Hs) as H. rewrite Hr in H. exact H. }
  assert (Hslot : slot m1 k = (put_chain k v (slot m k)).1.1).
  { pose proof (put_result_slot m k v Hs) as H. rewrite Hr in H. exact H. }
  exists old, m1, t1. eexists _, _. split; [exact Hput|].
  rewrite (get_eq m1 k Hs1), Hslot, put_chain_get. reflexivity.
Qed.

Lemma put_then_get_returns_value_witness :
  exists old m1 t1 m2 t2,
    put (mk_map [NULL; Entry 5 100 (Entry 9 200 NULL); NULL; NULL] 2 4 2) 9 7
      = Some (old, m1, t1)
    /\ get m1 9 = Some (7, m2, t2).
Proof.
  apply (put_then_get_returns_value
           (mk_map [NULL; Entry 5 100 (Entry 9 200 NULL); NULL; NULL] 2 4 2) 9 7).
  unfold shape, INT_MAX. simpl. lia.
Defined.

Lemma total_entries_insert (t : list chain) (i : nat) (c c' : chain) :
  t !! i = Some c ->
  total_entries (<[i := c']> t) = total_entries t - chain_length c + chain_length c'.
Proof.
  revert i. induction t as [|c0 t IH]; intros i Hi; [discriminate|].
  destruct i as [|i]; simpl in *.
  - injection Hi as ->. lia.
  - rewrite (IH i Hi). lia.
Qed.

(** C3: after [put(map, k, v1)], a second [put(map, k, v2)] returns [v1],
    leaves [size] and the number of entries as they were, and a following
    [get(map, k)] returns [v2]. *)
Theorem put_twice_replaces (m : ts_hashmap) (k v1 v2 : Z) :
  shape m ->
  exists old m1 t1 m2 t2 m3 t3,
    put m k v1 = Some (old, m1, t1) /\
    put m1 k v2 = Some (v1, m2, t2) /\
    get m2 k = Some (v2, m3, t3) /\
    size m2 = size m1 /\
    total_entries (table m2) = total_entries (table m1).
Proof.
  intros Hs. pose proof (put_eq m k v1 Hs) as Hput1.
  pose proof (put_result_shape m k v1 Hs) as Hs1.
  pose proof (put_result_slot m k v1 Hs) as Hslot1.
  destruct (put_result m k v1) as [[old m1] t1]. simpl in Hs1, Hslot1.
  pose proof (put_eq m1 k v2 Hs1) as Hput2.
  pose proof (put_result_shape m1 k v2 Hs1) as Hs2.
  pose proof (put_result_slot m1 k v2 Hs1) as Hslot2.
  pose proof (put_result_size m1 k v2) as Hsize2.
  pose proof (put_result_value m1 k v2) as Hval2.
  pose proof (put_result_table m1 k v2) as Htab2.
  destruct (put_result m1 k v2) as [[r2 m2] t2].
  simpl in Hs2, Hslot2, Hsize2, Hval2, Htab2.
  assert (Hin : In k (keys (slot m1 k))) by (rewrite Hslot1; apply put_chain_In).
  destruct (put_chain_present k v2 (slot m1 k) Hin) as (Hmade & _ & Hlen).
  rewrite Hslot1, put_chain_get in Hval2. subst r2.
  exists old, m1, t1, m2, t2. eexists _, _.
  split; [exact Hput1|]. split; [exact Hput2|]. split; [|split].
  - rewrite (get_eq m2 k Hs2), Hslot2, put_chain_get. reflexivity.
  - rewrite Hsize2, Hmade. reflexivity.
  - rewrite Htab2, (total_entries_insert _ _ _ _ (slot_lookup m1 Hs1 k)), Hlen. lia.
Qed.

Lemma put_twice_replaces_witness :
  exists old m1 t1 m2 t2 m3 t3,
    put (mk_map [NULL; Entry 5 100 NULL; NULL; NULL] 1 4 1) 9 200
      = Some (old, m1, t1) /\
    put m1 9 300 = Some (200, m2, t2) /\
    get m2 9 = Some (300, m3, t3) /\
    size m2 = size m1 /\
    total_entries (table m2) = total_entries (table m1).
Proof.
  apply (put_twice_replaces (mk_map [NULL; Entry 5 100 NULL; NULL; NULL] 1 4 1)
           9 200 300).
  unfold shape, INT_MAX. simpl. lia.
Defined.

(** ** Misses of [del] *)

Lemma slot_keys_stored (m : ts_hashmap) (key x : Z) :
  shape m -> In x (keys (slot m key)) -> In x (stored_keys m).
Proof.
  intros Hs Hin. unfold stored_keys. apply in_concat.
  exists (keys (slot m key)). split; [|exact Hin].
  apply in_map. apply list_elem_of_In.
  apply list_elem_of_lookup. eexists. apply (slot_lookup m Hs).
Qed.

(** C6: for a key that is stored nowhere in the map, [del] returns the
    not-found value [INT_MAX], and leaves [size] and every bucket as they
    were (the bucket of the key may be empty or hold other keys). *)
Theorem del_absent_key (m : ts_hashmap) (k : Z) :
  shape m ->
  ~ In k (stored_keys m) ->
  exists m' t,
    del m k = Some (INT_MAX, m', t) /\ size m' = size m /\ table m' = table m.
Proof.
  intros Hs Habs.
  assert (Hn : ~ In k (keys (slot m k))).
  { intros Hin. apply Habs. apply (slot_keys_stored m k k Hs Hin). }
  rewrite (del_eq m k Hs). unfold del_result.
  rewrite (del_chain_absent k _ Hn).
  eexists _, _. split; [reflexivity|]. split; [reflexivity|]. simpl.
  apply list_insert_id, (slot_lookup m Hs).
Qed.

Lemma del_absent_key_witness :
  exists m' t,
    del (mk_map [NULL; Entry 5 100 (Entry 9 200 NULL); NULL; NULL] 2 4 2) 13
      = Some (INT_MAX, m', t)
    /\ size m' = 2
    /\ table m' = [NULL; Entry 5 100 (Entry 9 200 NULL); NULL; NULL].
Proof.
  apply (del_absent_key
           (mk_map [NULL; Entry 5 100 (Entry 9 200 NULL); NULL; NULL] 2 4 2) 13).
  - unfold shape, INT_MAX. simpl. lia.
  - simpl. intros [H|[H|[]]]; discriminate H.
Defined.

(** ** [get] is read-only *)

(** C10: whenever [get] is defined it leaves the table (every chain, with its
    keys, values and links), [size] and [capacity] as they were and adds one
    to [numOps]; and it is defined on every well-shaped map. *)
Theorem get_changes_only_numOps (m : ts_hashmap) (k : Z) :
  (forall r m' t,
     get m k = Some (r, m', t) ->
     table m' = table m /\ size m' = size m /\ capacity m' = capacity m /\
     numOps m' = numOps m + 1) /\
  (shape m -> exists r t, get m k = Some (r, set_numOps m (numOps m + 1), t)).
Proof.
  split.
  - intros r m' t. unfold get, bind, read, lift.
    destruct (urem (to_unsigned k) (capacity m)) as [i|]; [|discriminate].
    unfold pthread_mutex_lock, pthread_mutex_unlock, load_table, modify, ret.
    simpl guard_exists.
    destruct ((0 <=? i) && (i <? Z.of_nat (length (table m)))) eqn:Hg;
      [|discriminate].
    destruct (i <? 0); [discriminate|].
    destruct (table m !! Z.to_nat i) as [c|]; [|discriminate].
    simpl. rewrite Hg. intros H. injection H as _ <- _. simpl. auto.
  - intros Hs. rewrite (get_eq m k Hs). eauto.
Qed.

Lemma get_changes_only_numOps_witness :
  let m := mk_map [NULL; Entry 5 100 (Entry 9 200 NULL); NULL; NULL] 2 4 2 in
  let m' := mk_map [NULL; Entry 5 100 (Entry 9 200 NULL); NULL; NULL] 3 4 2 in
  (table m' = table m /\ size m' = size m /\ capacity m' = capacity m /\
   numOps m' = numOps m + 1) /\
  (exists r t, get m 9 = Some (r, m', t)).
Proof.
  destruct (get_changes_only_numOps
              (mk_map [NULL; Entry 5 100 (Entry 9 200 NULL); NULL; NULL] 2 4 2) 9)
    as [Hframe Hdef].
  split.
  - apply (Hframe 200 _ (bucket_trace 1 ++ op_trace)). reflexivity.
  - apply Hdef. unfold shape, INT_MAX. simpl. lia.
Defined.

(** ** The invariant of the table *)

Lemma total_entries_replicate (n : nat) : total_entries (replicate n NULL) = 0.
Proof. induction n as [|n IH]; simpl; [reflexivity | exact IH]. Qed.

Lemma initmap_invariant (c : Z) (m : ts_hashmap) :
  1 <= c <= INT_MAX -> initmap c = Some m -> invariant m.
Proof.
  intros Hc Hinit. injection Hinit as <-. split; [|split].
  - split; simpl; [lia | rewrite length_replicate; lia].
  - intros i c0 Hi. simpl in Hi. apply lookup_replicate in Hi as [-> _].
    split; [constructor | intros k []].
  - simpl. symmetry. apply total_entries_replicate.
Qed.

Lemma chains_ok_update (m : ts_hashmap) (key : Z) (c' : chain) (n s : Z) :
  shape m -> chains_ok m ->
  List.NoDup (keys c') ->
  (forall x, In x (keys c') -> In x (keys (slot m key)) \/ x = key) ->
  chains_ok (mk_map (<[Z.to_nat (bucket_index m key) := c']> (table m)) n (capacity m) s).
Proof.
  intros Hs Hok Hnd Hkeys i c. simpl.
  destruct (decide (i = Z.to_nat (bucket_index m key))) as [->|Hne].
  - rewrite list_lookup_insert_eq by apply (bucket_index_lt_length m Hs).
    intros H. injection H as <-. split; [exact Hnd|].
    intros x Hx. unfold bucket_index at 1. simpl. fold (bucket_index m x).
    pose proof (bucket_index_range m Hs key) as Hr.
    destruct (Hkeys x Hx) as [Hin| ->]; [|lia].
    apply (Hok _ _ (slot_lookup m Hs key)), Hin.
  - rewrite list_lookup_insert_ne by congruence.
    intros H. destruct (Hok i c H) as [H1 H2]. split; [exact H1|].
    intros x Hx. unfold bucket_index at 1. simpl. apply (H2 x Hx).
Qed.

Lemma put_chain_NoDup (key value : Z) (c : chain) :
  List.NoDup (keys c) -> List.NoDup (keys (put_chain key value c).1.1).
Proof.
  intros Hnd. destruct (in_dec Z.eq_dec key (keys c)) as [Hin|Hn].
  - destruct (put_chain_present key value c Hin) as (_ & -> & _). exact Hnd.
  - destruct (put_chain_absent key value c Hn) as (_ & -> & _).
    apply List.NoDup_app; [exact Hnd | |].
    + apply List.NoDup_cons_iff. split; [intros [] | constructor].
    + intros a Ha [<-|[]]. exact (Hn Ha).
Qed.

Lemma put_chain_keys_incl (key value x : Z) (c : chain) :
  In x (keys (put_chain key value c).1.1) -> In x (keys c) \/ x = key.
Proof.
  destruct (in_dec Z.eq_dec key (keys c)) as [Hin|Hn].
  - destruct (put_chain_present key value c Hin) as (_ & -> & _). auto.
  - destruct (put_chain_absent key value c Hn) as (_ & -> & _).
    intros H. apply in_app_or in H as [H|[H|[]]]; auto.
Qed.

Lemma put_chain_length (key value : Z) (c : chain) :
  chain_length (put_chain key value c).1.1 =
    chain_length c + (if (put_chain key value c).2 then 1 else 0).
Proof.
  destruct (in_dec Z.eq_dec key (keys c)) as [Hin|Hn].
  - destruct (put_chain_present key value c Hin) as (-> & _ & ->). lia.
  - destruct (put_chain_absent key value c Hn) as (-> & _ & ->). lia.
Qed.

Lemma del_chain_length (key : Z) (c : chain) :
  chain_length (del_chain key c).1.1 =
    chain_length c - (if (del_chain key c).2 then 1 else 0).
Proof.
  destruct (in_dec Z.eq_dec key (keys c)) as [Hin|Hn].
  - destruct (del_chain_present key c Hin) as (-> & _ & ->). lia.
  - rewrite (del_chain_absent key c Hn). simpl. lia.
Qed.

Lemma get_invariant (m : ts_hashmap) (key r : Z) (m' : ts_hashmap) (t : list event) :
  invariant m -> get m key = Some (r, m', t) -> invariant m'.
Proof.
  intros (Hs & Hok & Hsize) Hget. rewrite (get_eq m key Hs) in Hget.
  injection Hget as _ <- _. split; [exact Hs|]. split; [exact Hok | exact Hsize].
Qed.

Lemma put_invariant (m : ts_hashmap) (key value r : Z) (m' : ts_hashmap) (t : list event) :
  invariant m -> put m key value = Some (r, m', t) -> invariant m'.
Proof.
  intros (Hs & Hok & Hsize) Hput. rewrite (put_eq m key value Hs) in Hput.
  injection Hput as Hput. unfold put_result in Hput.
  pose proof (put_chain_NoDup key value (slot m key)) as Hnd.
  pose proof (fun x => put_chain_keys_incl key value x (slot m key)) as Hincl.
  pose proof (put_chain_length key value (slot m key)) as Hlen.
  destruct (put_chain key value (slot m key)) as [[c' r'] made].
  simpl in Hnd, Hincl, Hlen. injection Hput as _ <- _.
  split; [apply shape_update, Hs|]. split.
  - apply chains_ok_update; auto.
    apply Hnd, (Hok _ _ (slot_lookup m Hs key)).
  - simpl. rewrite (total_entries_insert _ _ _ _ (slot_lookup m Hs key)), Hlen.
    destruct made; lia.
Qed.

Lemma del_invariant (m : ts_hashmap) (key r : Z) (m' : ts_hashmap) (t : list event) :
  invariant m -> del m key = Some (r, m', t) -> invariant m'.
Proof.
  intros (Hs & Hok & Hsize) Hdel. rewrite (del_eq m key Hs) in Hdel.
  injection Hdel as Hdel. unfold del_result in Hdel.
  pose proof (del_chain_NoDup key (slot m key)) as Hnd.
  pose proof (fun x => del_chain_keys_incl key x (slot m key)) as Hincl.
  pose proof (del_chain_length key (slot m key)) as Hlen.
  destruct (del_chain key (slot m key)) as [[c' r'] deleted].
  simpl in Hnd, Hincl, Hlen. injection Hdel as _ <- _.
  split; [apply shape_update, Hs|]. split.
  - apply chains_ok_update; auto.
    apply Hnd, (Hok _ _ (slot_lookup m Hs key)).
  - simpl. rewrite (total_entries_insert _ _ _ _ (slot_lookup m Hs key)), Hlen.
    destruct deleted; lia.
Qed.

Lemma reachable_invariant (m : ts_hashmap) : reachable m -> invariant m.
Proof.
  induction 1 as [c m Hc Hinit | m o r m' t Hreach IH Hcall].
  - apply (initmap_invariant c m Hc Hinit).
  - destruct o as [key | key value | key]; simpl in Hcall.
    + apply (get_invariant m key r m' t IH Hcall).
    + apply (put_invariant m key value r m' t IH Hcall).
    + apply (del_invariant m key r m' t IH Hcall).
Qed.

(** C5: in every map reachable from [initmap] by calls of [get], [put] and
    [del], a stored key sits in the bucket whose index is its unsigned
    conversion modulo the capacity, hence in one chain only, occurs at most
    once in that chain, and [size] is the number of entries reachable from
    all the buckets. *)
Theorem reachable_chains_and_size (m : ts_hashmap) :
  reachable m ->
  (forall (i : nat) c k,
     table m !! i = Some c -> In k (keys c) ->
     Z.of_nat i = to_unsigned k mod capacity m) /\
  (forall (i j : nat) ci cj k,
     table m !! i = Some ci -> table m !! j = Some cj ->
     In k (keys ci) -> In k (keys cj) -> i = j) /\
  (forall (i : nat) c, table m !! i = Some c -> List.NoDup (keys c)) /\
  size m = total_entries (table m).
Proof.
  intros Hreach. destruct (reachable_invariant m Hreach) as (Hs & Hok & Hsize).
  repeat split.
  - intros i c k Hi Hk. symmetry. apply (Hok i c Hi), Hk.
  - intros i j ci cj k Hi Hj Hki Hkj.
    pose proof (proj2 (Hok i ci Hi) k Hki). pose proof (proj2 (Hok j cj Hj) k Hkj). lia.
  - intros i c Hi. apply (Hok i c Hi).
  - exact Hsize.
Qed.

Lemma reachable_chains_and_size_witness :
  let m := mk_map [NULL; Entry 5 100 (Entry 9 200 NULL); NULL; NULL] 2 4 2 in
  (forall (i : nat) c k,
     table m !! i = Some c -> In k (keys c) ->
     Z.of_nat i = to_unsigned k mod capacity m) /\
  (forall (i j : nat) ci cj k,
     table m !! i = Some ci -> table m !! j = Some cj ->
     In k (keys ci) -> In k (keys cj) -> i = j) /\
  (forall (i : nat) c, table m !! i = Some c -> List.NoDup (keys c)) /\
  size m = total_entries (table m).
Proof.
  apply (reachable_chains_and_size
           (mk_map [NULL; Entry 5 100 (Entry 9 200 NULL); NULL; NULL] 2 4 2)).
  apply (reach_call (mk_map [NULL; Entry 5 100 NULL; NULL; NULL] 1 4 1)
           (Put 9 200) INT_MAX _
           [Acquire (bucketLock 1); Release (bucketLock 1);
            Acquire sizeLock; Release sizeLock; Acquire opLock; Release opLock]).
  - apply (reach_call (mk_map [NULL; NULL; NULL; NULL] 0 4 0)
             (Put 5 100) INT_MAX _
             [Acquire (bucketLock 1); Release (bucketLock 1);
              Acquire sizeLock; Release sizeLock; Acquire opLock; Release opLock]).
    + apply (reach_init 4); [unfold INT_MAX; lia | reflexivity].
    + reflexivity.
  - reflexivity.
Defined.

(** C4: on a reachable map, after [put(map, k, v)] the call [del(map, k)]
    returns [v] and takes exactly one off [size] and off the number of
    entries, and a following [get(map, k)] returns the not-found value
    [INT_MAX]; the entry may be the head of its chain or further down. *)
Theorem put_then_del_removes (m : ts_hashmap) (k v : Z) :
  reachable m ->
  exists old m1 t1 m2 t2 m3 t3,
    put m k v = Some (old, m1, t1) /\
    del m1 k = Some (v, m2, t2) /\
    get m2 k = Some (INT_MAX, m3, t3) /\
    size m2 = size m1 - 1 /\
    total_entries (table m2) = total_entries (table m1) - 1.
Proof.
  intros Hreach. pose proof (reachable_invariant m Hreach) as Hinv.
  pose proof Hinv as (Hs & _ & _).
  pose proof (put_eq m k v Hs) as Hput.
  pose proof (put_result_slot m k v Hs) as Hslot1.
  destruct (put_result m k v) as [[old m1] t1]. simpl in Hslot1.
  destruct (put_invariant m k v old m1 t1 Hinv Hput) as (Hs1 & Hok1 & Hsize1).
  pose proof (del_eq m1 k Hs1) as Hdel.
  pose proof (del_result_shape m1 k Hs1) as Hs2.
  pose proof (del_result_slot m1 k Hs1) as Hslot2.
  pose proof (del_result_size m1 k) as Hsize2.
  pose proof (del_result_value m1 k) as Hval2.
  pose proof (del_result_table m1 k) as Htab2.
  destruct (del_result m1 k) as [[r2 m2] t2].
  simpl in Hs2, Hslot2, Hsize2, Hval2, Htab2.
  assert (Hin : In k (keys (slot m1 k))) by (rewrite Hslot1; apply put_chain_In).
  destruct (del_chain_present k (slot m1 k) Hin) as (Hdeleted & Hret & Hlen).
  destruct (del_chain_NoDup k (slot m1 k)) as [_ Hgone].
  { apply (Hok1 _ _ (slot_lookup m1 Hs1 k)). }
  rewrite Hret, Hslot1, put_chain_get in Hval2. subst r2.
  exists old, m1, t1, m2, t2. eexists _, _.
  split; [exact Hput|]. split; [exact Hdel|]. split; [|split].
  - rewrite (get_eq m2 k Hs2), Hslot2, (get_loop_absent _ _ _ Hgone). reflexivity.
  - rewrite Hsize2, Hdeleted. reflexivity.
  - rewrite Htab2, (total_entries_insert _ _ _ _ (slot_lookup m1 Hs1 k)), Hlen. lia.
Qed.

Lemma put_then_del_removes_witness :
  exists old m1 t1 m2 t2 m3 t3,
    put (mk_map [NULL; Entry 5 100 NULL; NULL; NULL] 1 4 1) 9 200
      = Some (old, m1, t1) /\
    del m1 9 = Some (200, m2, t2) /\
    get m2 9 = Some (INT_MAX, m3, t3) /\
    size m2 = size m1 - 1 /\
    total_entries (table m2) = total_entries (table m1) - 1.
Proof.
  apply (put_then_del_removes (mk_map [NULL; Entry 5 100 NULL; NULL; NULL] 1 4 1)
           9 200).
  apply (reach_call (mk_map [NULL; NULL; NULL; NULL] 0 4 0)
           (Put 5 100) INT_MAX _
           [Acquire (bucketLock 1); Release (bucketLock 1);
            Acquire sizeLock; Release sizeLock; Acquire opLock; Release opLock]).
  - apply (reach_init 4); [unfold INT_MAX; lia | reflexivity].
  - reflexivity.
Defined.

(** ** The bucket of a key *)

Lemma to_unsigned_int (k : Z) : is_int k -> to_unsigned k = reinterpret_unsigned k.
Proof.
  unfold is_int, INT_MIN, INT_MAX, to_unsigned, reinterpret_unsigned, UINT_MODULUS.
  intros Hk. destruct (Z.ltb_spec k 0) as [Hneg|Hpos].
  - rewrite <- (Z_mod_plus_full k 1 4294967296). apply Z.mod_small. lia.
  - apply Z.mod_small. lia.
Qed.

Lemma locked_buckets_get (i : Z) : locked_buckets (bucket_trace i ++ op_trace) = [i].
Proof. reflexivity. Qed.

Lemma locked_buckets_put (i : Z) (made : bool) :
  locked_buckets (bucket_trace i ++ size_trace made ++ op_trace) = [i].
Proof. destruct made; reflexivity. Qed.

Lemma locked_buckets_del (i key : Z) (bucket : chain) (deleted : bool) :
  locked_buckets (del_trace i key bucket deleted) = [i].
Proof.
  destruct bucket as [|k v next]; [reflexivity|]. simpl.
  destruct (k =? key); [reflexivity|]. destruct deleted; reflexivity.
Qed.

(** C7: for every [int] key, negative ones included, the index [i] obtained
    from the bit pattern of the key read as unsigned, modulo the capacity,
    lies in [0, capacity), and each of [get], [put] and [del] locks the guard
    of bucket [i] and of no other bucket, and leaves every other slot of the
    table as it was. *)
Theorem same_bucket_index (m : ts_hashmap) (k v : Z) :
  shape m -> is_int k ->
  let i := reinterpret_unsigned k mod capacity m in
  0 <= i < capacity m /\
  (exists r m' t,
     get m k = Some (r, m', t) /\ locked_buckets t = [i] /\
     forall j : nat, j <> Z.to_nat i -> table m' !! j = table m !! j) /\
  (exists r m' t,
     put m k v = Some (r, m', t) /\ locked_buckets t = [i] /\
     forall j : nat, j <> Z.to_nat i -> table m' !! j = table m !! j) /\
  (exists r m' t,
     del m k = Some (r, m', t) /\ locked_buckets t = [i] /\
     forall j : nat, j <> Z.to_nat i -> table m' !! j = table m !! j).
Proof.
  intros Hs Hk. rewrite <- (to_unsigned_int k Hk). fold (bucket_index m k).
  cbv zeta. split; [apply (bucket_index_range m Hs)|]. split; [|split].
  - rewrite (get_eq m k Hs). eexists _, _, _. split; [reflexivity|].
    split; [apply locked_buckets_get | reflexivity].
  - rewrite (put_eq m k v Hs). unfold put_result.
    destruct (put_chain k v (slot m k)) as [[c' r] made].
    eexists _, _, _. split; [reflexivity|].
    split; [apply locked_buckets_put|].
    intros j Hj. simpl. apply list_lookup_insert_ne. congruence.
  - rewrite (del_eq m k Hs). unfold del_result.
    destruct (del_chain k (slot m k)) as [[c' r] deleted].
    eexists _, _, _. split; [reflexivity|].
    split; [apply locked_buckets_del|].
    intros j Hj. simpl. apply list_lookup_insert_ne. congruence.
Qed.

Lemma same_bucket_index_witness :
  let m := mk_map [NULL; NULL; Entry (-1) 7 NULL] 1 3 1 in
  let i := reinterpret_unsigned (-4) mod capacity m in
  0 <= i < capacity m /\
  (exists r m' t,
     get m (-4) = Some (r, m', t) /\ locked_buckets t = [i] /\
     forall j : nat, j <> Z.to_nat i -> table m' !! j = table m !! j) /\
  (exists r m' t,
     put m (-4) 8 = Some (r, m', t) /\ locked_buckets t = [i] /\
     forall j : nat, j <> Z.to_nat i -> table m' !! j = table m !! j) /\
  (exists r m' t,
     del m (-4) = Some (r, m', t) /\ locked_buckets t = [i] /\
     forall j : nat, j <> Z.to_nat i -> table m' !! j = table m !! j).
Proof.
  apply (same_bucket_index (mk_map [NULL; NULL; Entry (-1) 7 NULL] 1 3 1) (-4) 8).
  - unfold shape, INT_MAX. simpl. lia.
  - unfold is_int, INT_MIN, INT_MAX. lia.
Defined.

(** ** Counting the calls *)

Lemma call_numOps (m : ts_hashmap) (o : op) :
  shape m ->
  exists r m' t,
    call m o = Some (r, m', t) /\ shape m' /\ numOps m' = numOps m + 1.
Proof.
  intros Hs. destruct o as [key | key value | key]; simpl.
  - rewrite (get_eq m key Hs). eexists _, _, _. split; [reflexivity|].
    split; [exact Hs | reflexivity].
  - rewrite (put_eq m key value Hs).
    pose proof (put_result_shape m key value Hs) as Hs'.
    unfold put_result in *.
    destruct (put_chain key value (slot m key)) as [[c' r] made].
    eexists _, _, _. split; [reflexivity|]. split; [exact Hs' | reflexivity].
  - rewrite (del_eq m key Hs).
    pose proof (del_result_shape m key Hs) as Hs'.
    unfold del_result in *.
    destruct (del_chain key (slot m key)) as [[c' r] deleted].
    eexists _, _, _. split; [reflexivity|]. split; [exact Hs' | reflexivity].
Qed.

Lemma run_numOps (ops : list op) (m : ts_hashmap) :
  shape m ->
  exists m', run m ops = Some m' /\ numOps m' = numOps m + Z.of_nat (length ops).
Proof.
  revert m. induction ops as [|o rest IH]; intros m Hs.
  - exists m. split; [reflexivity | simpl; lia].
  - destruct (call_numOps m o Hs) as (r & m1 & t & Hcall & Hs1 & Hn1).
    destruct (IH m1 Hs1) as (m' & Hrun & Hn).
    exists m'. simpl run. rewrite Hcall. split; [exact Hrun|].
    rewrite Hn, Hn1. simpl length. lia.
Qed.

(** C8: from a freshly constructed map of positive capacity, any sequence of
    N calls of [get], [put] and [del] runs to completion and leaves [numOps]
    equal to N; and on any well-shaped map each single call, whatever its
    outcome, adds exactly one to [numOps]. *)
Theorem numOps_counts_calls (c : Z) (ops : list op) (m : ts_hashmap) (o : op) :
  1 <= c <= INT_MAX ->
  shape m ->
  (exists m0 mN,
     initmap c = Some m0 /\ run m0 ops = Some mN /\
     numOps mN = Z.of_nat (length ops)) /\
  (exists r m' t, call m o = Some (r, m', t) /\ numOps m' = numOps m + 1).
Proof.
  intros Hc Hs. split.
  - destruct (initmap c) as [m0|] eqn:Hinit; [|discriminate].
    destruct (initmap_invariant c m0 Hc Hinit) as (Hs0 & _ & _).
    destruct (run_numOps ops m0 Hs0) as (mN & Hrun & Hn).
    exists m0, mN. split; [reflexivity|]. split; [exact Hrun|].
    injection Hinit as <-. simpl in Hn. exact Hn.
  - destruct (call_numOps m o Hs) as (r & m' & t & Hcall & _ & Hn). eauto.
Qed.

Lemma numOps_counts_calls_witness :
  (exists m0 mN,
     initmap 4 = Some m0 /\
     run m0 [Put 5 100; Put 9 200; Get 5; Del 5; Del 5; Get 7] = Some mN /\
     numOps mN = 6) /\
  (exists r m' t,
     call (mk_map [NULL; Entry 5 100 (Entry 9 200 NULL); NULL; NULL] 2 4 2) (Del 13)
       = Some (r, m', t) /\
     numOps m' = 2 + 1).
Proof.
  apply (numOps_counts_calls 4 [Put 5 100; Put 9 200; Get 5; Del 5; Del 5; Get 7]
           (mk_map [NULL; Entry 5 100 (Entry 9 200 NULL); NULL; NULL] 2 4 2) (Del 13)).
  - unfold INT_MAX. lia.
  - unfold shape, INT_MAX. simpl. lia.
Defined.

(** ** Construction *)

Lemma no_bucket_guard (m : ts_hashmap) (i : Z) :
  table m = [] -> guard_exists m (bucketLock i) = false.
Proof.
  intros Ht. unfold guard_exists. rewrite Ht. simpl.
  destruct (Z.leb_spec 0 i); [|reflexivity].
  simpl. apply Z.ltb_ge. lia.
Qed.

Lemma calls_undefined_without_slots (m : ts_hashmap) (k v : Z) :
  table m = [] -> get m k = None /\ put m k v = None /\ del m k = None.
Proof.
  intros Ht. unfold get, put, del, bind, read, lift.
  destruct (urem (to_unsigned k) (capacity m)) as [i|]; [|auto].
  unfold pthread_mutex_lock, pthread_mutex_unlock, modify.
  cbn [guard_exists table set_numOps]. cbv beta iota.
  fold (guard_exists m (bucketLock i)). rewrite (no_bucket_guard m i Ht). auto.
Qed.

(** C9, as the code has it: [initmap] has no test on its argument.  For every
    capacity it returns a map with [size] 0, [numOps] 0 and the capacity as
    given; for a capacity of at least 1 the map has that many slots, all
    empty; for a capacity of 0 or less the map it returns has no slot, and
    every [get], [put] and [del] on it is undefined. *)
Theorem initmap_accepts_any_capacity (c : Z) :
  exists m,
    initmap c = Some m /\
    size m = 0 /\ numOps m = 0 /\ capacity m = c /\
    (forall (i : nat) ch, table m !! i = Some ch -> ch = NULL) /\
    (1 <= c -> Z.of_nat (length (table m)) = c) /\
    (c <= 0 ->
     table m = [] /\
     forall k v, get m k = None /\ put m k v = None /\ del m k = None).
Proof.
  eexists. split; [reflexivity|]. simpl.
  split; [reflexivity|]. split; [reflexivity|]. split; [reflexivity|].
  split; [|split].
  - intros i ch Hi. apply lookup_replicate in Hi as [-> _]. reflexivity.
  - intros Hc. rewrite length_replicate. lia.
  - intros Hc. replace (Z.to_nat c) with 0%nat by lia.
    split; [reflexivity|]. intros k v.
    apply calls_undefined_without_slots. reflexivity.
Qed.

Lemma initmap_accepts_any_capacity_witness :
  (exists m,
     initmap 4 = Some m /\ size m = 0 /\ numOps m = 0 /\ capacity m = 4 /\
     Z.of_nat (length (table m)) = 4) /\
  (exists m,
     initmap (-2) = Some m /\ table m = [] /\
     get m 5 = None /\ put m 5 100 = None /\ del m 5 = None).
Proof.
  split.
  - destruct (initmap_accepts_any_capacity 4)
      as (m & Hinit & Hsize & Hops & Hcap & _ & Hlen & _).
    exists m. repeat split; try assumption. apply Hlen. lia.
  - destruct (initmap_accepts_any_capacity (-2))
      as (m & Hinit & _ & _ & _ & _ & _ & Hbad).
    destruct Hbad as [Ht Hcalls]; [lia|].
    exists m. split; [exact Hinit|]. split; [exact Ht|]. apply (Hcalls 5 100).
Defined.

(** A capacity of 0, or a negative one, is not refused: [initmap] returns a
    map with no slot. *)
Lemma initmap_zero_is_not_rejected :
  initmap 0 = Some (mk_map [] 0 0 0) /\ initmap 0 <> None /\
  initmap (-1) = Some (mk_map [] 0 (-1) 0).
Proof. split; [reflexivity|]. split; [discriminate | reflexivity]. Qed.

(** ** Lock discipline *)

Lemma max_held_ge (held : list guard) (t : list event) :
  (length held <= max_held held t)%nat.
Proof. destruct t; simpl; lia. Qed.

Lemma one_guard_bucket_then_scalars (i : Z) (changed : bool) :
  one_guard_at_a_time (bucket_trace i ++ size_trace changed ++ op_trace) = true.
Proof.
  unfold one_guard_at_a_time. destruct changed; simpl; rewrite Z.eqb_refl; reflexivity.
Qed.

(** X18: on a well-shaped map [get] never holds two guards at once: the
    bucket guard is released before [opLock] is acquired. *)
Lemma get_one_guard (m : ts_hashmap) (k : Z) :
  shape m ->
  exists r m' t, get m k = Some (r, m', t) /\ one_guard_at_a_time t = true.
Proof.
  intros Hs. rewrite (get_eq m k Hs). eexists _, _, _. split; [reflexivity|].
  apply (one_guard_bucket_then_scalars _ false).
Qed.

(** X19: on a well-shaped map [put] never holds two guards at once, whether
    it creates an entry (and then takes [sizeLock]) or overwrites one. *)
Lemma put_one_guard (m : ts_hashmap) (k v : Z) :
  shape m ->
  exists r m' t, put m k v = Some (r, m', t) /\ one_guard_at_a_time t = true.
Proof.
  intros Hs. rewrite (put_eq m k v Hs). unfold put_result.
  destruct (put_chain k v (slot m k)) as [[c' r] made].
  eexists _, _, _. split; [reflexivity|]. apply one_guard_bucket_then_scalars.
Qed.

(** X20: [del] holds one guard at a time when the bucket is empty, when the
    head of the chain is removed and when the key is not found. *)
Lemma del_one_guard (m : ts_hashmap) (k : Z) :
  shape m ->
  (forall k0 v0 next, slot m k = Entry k0 v0 next -> k0 = k \/ ~ In k (keys next)) ->
  exists r m' t, del m k = Some (r, m', t) /\ one_guard_at_a_time t = true.
Proof.
  intros Hs Hcase. rewrite (del_eq m k Hs). unfold del_result.
  destruct (slot m k) as [|k0 v0 next] eqn:Hslot.
  - eexists _, _, _. split; [reflexivity|].
    unfold one_guard_at_a_time. simpl. rewrite Z.eqb_refl. reflexivity.
  - rewrite del_chain_Entry. unfold del_trace.
    destruct (Z.eqb_spec k0 k) as [->|Hne].
    + eexists _, _, _. split; [reflexivity|].
      unfold one_guard_at_a_time. simpl. rewrite Z.eqb_refl. reflexivity.
    + destruct (Hcase k0 v0 next eq_refl) as [Heq|Hn]; [contradiction|].
      rewrite (del_chain_absent k next Hn).
      eexists _, _, _. split; [reflexivity|].
      unfold one_guard_at_a_time. simpl. rewrite Z.eqb_refl. reflexivity.
Qed.

(** X21: when the entry removed is not the head of its chain, [del] acquires
    the size guard while it still holds the bucket guard. *)
Lemma del_mid_chain_two_guards (m : ts_hashmap) (k k0 v0 : Z) (next : chain) :
  shape m ->
  slot m k = Entry k0 v0 next -> k0 <> k -> In k (keys next) ->
  exists r m' t, del m k = Some (r, m', t) /\ one_guard_at_a_time t = false.
Proof.
  intros Hs Hslot Hne Hin. rewrite (del_eq m k Hs). unfold del_result.
  rewrite Hslot, del_chain_Entry. unfold del_trace.
  destruct (Z.eqb_spec k0 k) as [Heq|_]; [contradiction|].
  destruct (del_chain_present k next Hin) as (Hdel & _ & _).
  destruct (del_chain k next) as [[n r] deleted]. simpl in Hdel. subst deleted.
  eexists _, _, _. split; [reflexivity|].
  unfold one_guard_at_a_time. apply Nat.leb_gt. simpl.
  pose proof (max_held_ge [sizeLock; bucketLock (bucket_index m k)]
                [Release sizeLock; Release (bucketLock (bucket_index m k))]) as Hge.
  simpl in Hge. lia.
Qed.

(** C2, on the code: on the reachable map of capacity 4 holding keys 5 and 9
    in bucket 1, [del(map, 9)] removes the second entry of the chain and
    acquires the size guard between the acquisition and the release of the
    guard of bucket 1, so that two guards are held at once. *)
Theorem del_second_entry_holds_two_guards :
  let m := mk_map [NULL; Entry 5 100 (Entry 9 200 NULL); NULL; NULL] 2 4 2 in
  let t := [Acquire opLock; Release opLock; Acquire (bucketLock 1);
            Acquire sizeLock; Release sizeLock; Release (bucketLock 1)] in
  reachable m /\
  del m 9 = Some (200, mk_map [NULL; Entry 5 100 NULL; NULL; NULL] 3 4 1, t) /\
  max_held [] t = 2%nat /\
  one_guard_at_a_time t = false.
Proof.
  cbv zeta. split; [|split; [reflexivity | split; reflexivity]].
  apply (reach_call (mk_map [NULL; Entry 5 100 NULL; NULL; NULL] 1 4 1)
           (Put 9 200) INT_MAX _
           [Acquire (bucketLock 1); Release (bucketLock 1);
            Acquire sizeLock; Release sizeLock; Acquire opLock; Release opLock]).
  - apply (reach_call (mk_map [NULL; NULL; NULL; NULL] 0 4 0)
             (Put 5 100) INT_MAX _
             [Acquire (bucketLock 1); Release (bucketLock 1);
              Acquire sizeLock; Release sizeLock; Acquire opLock; Release opLock]).
    + apply (reach_init 4); [unfold INT_MAX; lia | reflexivity].
    + reflexivity.
  - reflexivity.
Qed.

(** ** A run on a table of four buckets

    Keys 5 and 9 collide in bucket 1; after both are put and 5 is deleted,
    9 is alone in its chain, [size] is 1, and [get] misses 5 and finds 9. *)
Example four_buckets_scenario :
  exists m0 m r5 m5 t5 r9 m9 t9,
    initmap 4 = Some m0 /\
    run m0 [Put 5 100; Put 9 200; Get 5; Get 9; Del 5] = Some m /\
    table m = [NULL; Entry 9 200 NULL; NULL; NULL] /\
    size m = 1 /\ numOps m = 5 /\
    get m 5 = Some (r5, m5, t5) /\ r5 = INT_MAX /\
    get m 9 = Some (r9, m9, t9) /\ r9 = 200.
Proof. repeat eexists. Qed.

(** * Further properties of the operations *)

(** ** Lookups after a call *)

Lemma del_chain_other (key key' d : Z) (c : chain) :
  key' <> key ->
  get_loop key' (del_chain key c).1.1 d = get_loop key' c d.
Proof.
  intros Hne. induction c as [|k v next IH]; [reflexivity|].
  rewrite del_chain_Entry. destruct (Z.eqb_spec k key) as [->|Hk].
  - simpl. destruct (Z.eqb_spec key' key); [contradiction | reflexivity].
  - destruct (del_chain key next) as [[n r] deleted].
    simpl in *. rewrite IH. reflexivity.
Qed.

Lemma del_chain_returns (key : Z) (c : chain) :
  (del_chain key c).1.2 = get_loop key c INT_MAX.
Proof.
  induction c as [|k v next IH]; [reflexivity|].
  rewrite del_chain_Entry. simpl get_loop. rewrite (Z.eqb_sym key k).
  destruct (k =? key); [reflexivity|].
  destruct (del_chain key next) as [[n r] deleted]. exact IH.
Qed.

Lemma entries_keys (k v : Z) (c : chain) : In (k, v) (entries c) -> In k (keys c).
Proof.
  induction c as [|k0 v0 next IH]; simpl; [tauto|].
  intros [Heq|Hin]; [left; congruence | right; auto].
Qed.

Lemma keys_entries (k : Z) (c : chain) :
  In k (keys c) -> In (k, get_loop k c INT_MAX) (entries c).
Proof.
  induction c as [|k0 v0 next IH]; simpl; [tauto|].
  intros Hin. destruct (Z.eqb_spec k k0) as [->|Hne]; [left; reflexivity|].
  right. apply IH. destruct Hin as [Heq|Hin]; [congruence | exact Hin].
Qed.

(** In a chain without duplicate keys the scan finds the entry of the key. *)
Lemma get_loop_entry (k v d : Z) (c : chain) :
  List.NoDup (keys c) -> In (k, v) (entries c) -> get_loop k c d = v.
Proof.
  induction c as [|k0 v0 next IH]; simpl; [tauto|].
  intros Hnd Hin. apply List.NoDup_cons_iff in Hnd as [Hk0 Hnd].
  destruct (Z.eqb_spec k k0) as [->|Hne].
  - destruct Hin as [Heq|Hin]; [congruence|].
    exfalso. apply Hk0. apply (entries_keys k0 v next Hin).
  - destruct Hin as [Heq|Hin]; [congruence|]. apply IH; assumption.
Qed.

Lemma slot_same_bucket (m : ts_hashmap) (k k' : Z) :
  bucket_index m k' = bucket_index m k -> slot m k' = slot m k.
Proof. intros He. unfold slot. rewrite He. reflexivity. Qed.

Lemma slot_update_other (m : ts_hashmap) (k k' : Z) (c : chain) (n s : Z) :
  shape m ->
  bucket_index m k' <> bucket_index m k ->
  slot (mk_map (<[Z.to_nat (bucket_index m k) := c]> (table m)) n (capacity m) s) k'
  = slot m k'.
Proof.
  intros Hs Hne. unfold slot at 1. unfold bucket_index at 1. simpl.
  fold (bucket_index m k'). rewrite list_lookup_insert_ne; [reflexivity|].
  pose proof (bucket_index_range m Hs k). pose proof (bucket_index_range m Hs k').
  lia.
Qed.

(** Replacing the chain of the bucket of [k] by one that answers the same for
    [k'] does not change what the scan of [get] finds for [k']. *)
Lemma get_loop_update (m : ts_hashmap) (k k' : Z) (c : chain) (n s : Z) :
  shape m ->
  (forall d, get_loop k' c d = get_loop k' (slot m k) d) ->
  get_loop k'
    (slot (mk_map (<[Z.to_nat (bucket_index m k) := c]> (table m)) n (capacity m) s) k')
    INT_MAX
  = get_loop k' (slot m k') INT_MAX.
Proof.
  intros Hs Hsame.
  destruct (Z.eq_dec (bucket_index m k') (bucket_index m k)) as [He|Hne].
  - rewrite <- He. rewrite (slot_update m k' c n s Hs). rewrite Hsame.
    rewrite (slot_same_bucket m k k' He). reflexivity.
  - rewrite (slot_update_other m k k' c n s Hs Hne). reflexivity.
Qed.

Lemma stored_keys_slot (m : ts_hashmap) (k : Z) :
  chains_ok m -> In k (stored_keys m) -> In k (keys (slot m k)).
Proof.
  intros Hok Hin. unfold stored_keys in Hin. apply in_concat in Hin as (l & Hl & Hk).
  apply in_map_iff in Hl as (c & <- & Hc).
  apply list_elem_of_In, list_elem_of_lookup in Hc as [i Hi].
  destruct (Hok i c Hi) as [_ Hidx]. specialize (Hidx k Hk).
  unfold slot. rewrite Hidx, Nat2Z.id, Hi. exact Hk.
Qed.

Lemma stored_entries_slot (m : ts_hashmap) (k v : Z) :
  chains_ok m -> In (k, v) (stored_entries m) -> In (k, v) (entries (slot m k)).
Proof.
  intros Hok Hin. unfold stored_entries in Hin.
  apply in_concat in Hin as (l & Hl & Hk).
  apply in_map_iff in Hl as (c & <- & Hc).
  apply list_elem_of_In, list_elem_of_lookup in Hc as [i Hi].
  destruct (Hok i c Hi) as [_ Hidx]. specialize (Hidx k (entries_keys k v c Hk)).
  unfold slot. rewrite Hidx, Nat2Z.id, Hi. exact Hk.
Qed.

Lemma slot_entries_stored (m : ts_hashmap) (key : Z) (e : Z * Z) :
  shape m -> In e (entries (slot m key)) -> In e (stored_entries m).
Proof.
  intros Hs Hin. unfold stored_entries. apply in_concat.
  exists (entries (slot m key)). split; [|exact Hin].
  apply in_map. apply list_elem_of_In.
  apply list_elem_of_lookup. eexists. apply (slot_lookup m Hs).
Qed.

(** X1: [get] on a key that is stored nowhere returns [INT_MAX] and changes
    nothing but [numOps]. *)
Theorem get_absent_key (m : ts_hashmap) (k : Z) :
  shape m ->
  ~ In k (stored_keys m) ->
  exists t, get m k = Some (INT_MAX, set_numOps m (numOps m + 1), t).
Proof.
  intros Hs Habs. rewrite (get_eq m k Hs). eexists.
  rewrite get_loop_absent; [reflexivity|].
  intros Hin. apply Habs, (slot_keys_stored m k k Hs Hin).
Qed.

Lemma get_absent_key_witness :
  exists t,
    get (mk_map [NULL; Entry 5 100 (Entry 9 200 NULL); NULL; NULL] 2 4 2) 13
    = Some (INT_MAX,
            mk_map [NULL; Entry 5 100 (Entry 9 200 NULL); NULL; NULL] 3 4 2, t).
Proof.
  apply (get_absent_key
           (mk_map [NULL; Entry 5 100 (Entry 9 200 NULL); NULL; NULL] 2 4 2) 13).
  - unfold shape, INT_MAX. simpl. lia.
  - simpl. intros [H|[H|[]]]; discriminate H.
Defined.

(** X2: in a reachable map every stored pair can be read back: if the pair
    (k, v) is in some chain, [get(map, k)] returns [v]. *)
Theorem get_stored_entry (m : ts_hashmap) (k v : Z) :
  reachable m ->
  In (k, v) (stored_entries m) ->
  exists m' t, get m k = Some (v, m', t).
Proof.
  intros Hreach Hin. destruct (reachable_invariant m Hreach) as (Hs & Hok & _).
  rewrite (get_eq m k Hs). eexists _, _.
  rewrite (get_loop_entry k v INT_MAX (slot m k)); [reflexivity | |].
  - apply (Hok _ _ (slot_lookup m Hs k)).
  - apply (stored_entries_slot m k v Hok Hin).
Qed.

Lemma reachable_two_keys :
  reachable (mk_map [NULL; Entry 5 100 (Entry 9 200 NULL); NULL; NULL] 2 4 2).
Proof.
  apply (reach_call (mk_map [NULL; Entry 5 100 NULL; NULL; NULL] 1 4 1)
           (Put 9 200) INT_MAX _
           [Acquire (bucketLock 1); Release (bucketLock 1);
            Acquire sizeLock; Release sizeLock; Acquire opLock; Release opLock]).
  - apply (reach_call (mk_map [NULL; NULL; NULL; NULL] 0 4 0)
             (Put 5 100) INT_MAX _
             [Acquire (bucketLock 1); Release (bucketLock 1);
              Acquire sizeLock; Release sizeLock; Acquire opLock; Release opLock]).
    + apply (reach_init 4); [unfold INT_MAX; lia | reflexivity].
    + reflexivity.
  - reflexivity.
Defined.

Lemma get_stored_entry_witness :
  exists m' t,
    get (mk_map [NULL; Entry 5 100 (Entry 9 200 NULL); NULL; NULL] 2 4 2) 9
    = Some (200, m', t).
Proof.
  apply (get_stored_entry
           (mk_map [NULL; Entry 5 100 (Entry 9 200 NULL); NULL; NULL] 2 4 2) 9 200).
  - exact reachable_two_keys.
  - simpl. right. left. reflexivity.
Defined.

(** X3: [get] returns [INT_MAX] exactly when the key is stored nowhere or is
    stored with the value [INT_MAX]; the return value alone does not tell
    the two apart. *)
Theorem get_INT_MAX_iff (m : ts_hashmap) (k : Z) :
  reachable m ->
  exists r m' t,
    get m k = Some (r, m', t) /\
    (r = INT_MAX <->
     ~ In k (stored_keys m) \/ In (k, INT_MAX) (stored_entries m)).
Proof.
  intros Hreach. destruct (reachable_invariant m Hreach) as (Hs & Hok & _).
  rewrite (get_eq m k Hs). eexists _, _, _. split; [reflexivity|]. split.
  - intros Hr. destruct (in_dec Z.eq_dec k (stored_keys m)) as [Hin|Hn]; [|auto].
    right. apply (slot_entries_stored m k _ Hs). rewrite <- Hr.
    apply keys_entries, (stored_keys_slot m k Hok Hin).
  - intros [Hn|Hin].
    + apply get_loop_absent. intros H. apply Hn, (slot_keys_stored m k k Hs H).
    + apply get_loop_entry.
      * apply (Hok _ _ (slot_lookup m Hs k)).
      * apply (stored_entries_slot m k INT_MAX Hok Hin).
Qed.

Lemma get_INT_MAX_iff_witness :
  exists r m' t,
    get (mk_map [NULL; Entry 5 100 (Entry 9 200 NULL); NULL; NULL] 2 4 2) 13
      = Some (r, m', t) /\
    (r = INT_MAX <->
     ~ In 13 (stored_keys
                (mk_map [NULL; Entry 5 100 (Entry 9 200 NULL); NULL; NULL] 2 4 2))
     \/ In (13, INT_MAX)
          (stored_entries
             (mk_map [NULL; Entry 5 100 (Entry 9 200 NULL); NULL; NULL] 2 4 2))).
Proof.
  apply (get_INT_MAX_iff
           (mk_map [NULL; Entry 5 100 (Entry 9 200 NULL); NULL; NULL] 2 4 2) 13).
  exact reachable_two_keys.
Defined.

(** ** Independence of distinct keys *)

(** X4: [put(map, k, v)] does not change what [get] returns for any other
    key, whether that key is in the same bucket or in another one. *)
Theorem put_keeps_other_keys (m : ts_hashmap) (k v k' : Z) :
  shape m -> k' <> k ->
  exists old m1 t1 r mg tg m2 t2,
    put m k v = Some (old, m1, t1) /\
    get m k' = Some (r, mg, tg) /\
    get m1 k' = Some (r, m2, t2).
Proof.
  intros Hs Hne. pose proof (put_eq m k v Hs) as Hput.
  pose proof (put_result_shape m k v Hs) as Hs1.
  pose proof (fun d => put_chain_other k v k' d (slot m k) Hne) as Hsame.
  unfold put_result in *.
  destruct (put_chain k v (slot m k)) as [[c' r0] made]. simpl in Hs1, Hsame.
  eexists _, _, _, _, _, _, _, _. split; [exact Hput|].
  split; [apply (get_eq m k' Hs)|].
  rewrite (get_eq _ k' Hs1). rewrite (get_loop_update m k k' c' _ _ Hs Hsame).
  reflexivity.
Qed.

Lemma put_keeps_other_keys_witness :
  exists old m1 t1 r mg tg m2 t2,
    put (mk_map [NULL; Entry 5 100 (Entry 9 200 NULL); NULL; NULL] 2 4 2) 9 7
      = Some (old, m1, t1) /\
    get (mk_map [NULL; Entry 5 100 (Entry 9 200 NULL); NULL; NULL] 2 4 2) 5
      = Some (r, mg, tg) /\
    get m1 5 = Some (r, m2, t2).
Proof.
  apply (put_keeps_other_keys
           (mk_map [NULL; Entry 5 100 (Entry 9 200 NULL); NULL; NULL] 2 4 2) 9 7 5).
  - unfold shape, INT_MAX. simpl. lia.
  - lia.
Defined.

(** X5: [del(map, k)] does not change what [get] returns for any other key:
    removing one of two colliding keys leaves the other retrievable. *)
Theorem del_keeps_other_keys (m : ts_hashmap) (k k' : Z) :
  shape m -> k' <> k ->
  exists old m1 t1 r mg tg m2 t2,
    del m k = Some (old, m1, t1) /\
    get m k' = Some (r, mg, tg) /\
    get m1 k' = Some (r, m2, t2).
Proof.
  intros Hs Hne. pose proof (del_eq m k Hs) as Hdel.
  pose proof (del_result_shape m k Hs) as Hs1.
  pose proof (fun d => del_chain_other k k' d (slot m k) Hne) as Hsame.
  unfold del_result in *.
  destruct (del_chain k (slot m k)) as [[c' r0] deleted]. simpl in Hs1, Hsame.
  eexists _, _, _, _, _, _, _, _. split; [exact Hdel|].
  split; [apply (get_eq m k' Hs)|].
  rewrite (get_eq _ k' Hs1). rewrite (get_loop_update m k k' c' _ _ Hs Hsame).
  reflexivity.
Qed.

Lemma del_keeps_other_keys_witness :
  exists old m1 t1 r mg tg m2 t2,
    del (mk_map [NULL; Entry 5 100 (Entry 9 200 NULL); NULL; NULL] 2 4 2) 5
      = Some (old, m1, t1) /\
    get (mk_map [NULL; Entry 5 100 (Entry 9 200 NULL); NULL; NULL] 2 4 2) 9
      = Some (r, mg, tg) /\
    get m1 9 = Some (r, m2, t2).
Proof.
  apply (del_keeps_other_keys
           (mk_map [NULL; Entry 5 100 (Entry 9 200 NULL); NULL; NULL] 2 4 2) 5 9).
  - unfold shape, INT_MAX. simpl. lia.
  - lia.
Defined.

(** X6: on the same map, [put(map, k, v)] and [del(map, k)] return the value
    that [get(map, k)] returns: the value stored for the key, or [INT_MAX]. *)
Theorem put_and_del_return_the_stored_value (m : ts_hashmap) (k v : Z) :
  shape m ->
  exists r mg tg mp tp md td,
    get m k = Some (r, mg, tg) /\
    put m k v = Some (r, mp, tp) /\
    del m k = Some (r, md, td).
Proof.
  intros Hs. pose proof (put_eq m k v Hs) as Hput.
  pose proof (del_eq m k Hs) as Hdel.
  pose proof (put_result_value m k v) as Hpv.
  pose proof (del_result_value m k) as Hdv. rewrite del_chain_returns in Hdv.
  destruct (put_result m k v) as [[rp mp] tp].
  destruct (del_result m k) as [[rd md] td]. simpl in Hpv, Hdv. subst rp rd.
  eexists _, _, _, _, _, _, _. split; [apply (get_eq m k Hs)|].
  split; [exact Hput | exact Hdel].
Qed.

Lemma put_and_del_return_the_stored_value_witness :
  exists r mg tg mp tp md td,
    get (mk_map [NULL; Entry 5 100 (Entry 9 200 NULL); NULL; NULL] 2 4 2) 9
      = Some (r, mg, tg) /\
    put (mk_map [NULL; Entry 5 100 (Entry 9 200 NULL); NULL; NULL] 2 4 2) 9 7
      = Some (r, mp, tp) /\
    del (mk_map [NULL; Entry 5 100 (Entry 9 200 NULL); NULL; NULL] 2 4 2) 9
      = Some (r, md, td).
Proof.
  apply (put_and_del_return_the_stored_value
           (mk_map [NULL; Entry 5 100 (Entry 9 200 NULL); NULL; NULL] 2 4 2) 9 7).
  unfold shape, INT_MAX. simpl. lia.
Defined.

(** ** Where [put] places an entry *)

Lemma put_chain_entries_absent (key value : Z) (c : chain) :
  ~ In key (keys c) ->
  entries (put_chain key value c).1.1 = entries c ++ [(key, value)].
Proof.
  induction c as [|k v next IH]; [reflexivity|].
  intros Hn. rewrite put_chain_Entry.
  destruct (Z.eqb_spec key k) as [->|Hk]; [simpl in Hn; tauto|].
  assert (Hn' : ~ In key (keys next)) by (simpl in Hn; tauto).
  specialize (IH Hn').
  destruct (put_chain key value next) as [[n r] made].
  simpl in *. rewrite IH. reflexivity.
Qed.

Lemma del_chain_put_chain (key value : Z) (c : chain) :
  ~ In key (keys c) ->
  del_chain key (put_chain key value c).1.1 = (c, value, true).
Proof.
  induction c as [|k v next IH].
  - intros _. simpl. rewrite Z.eqb_refl. reflexivity.
  - intros Hn. rewrite put_chain_Entry.
    destruct (Z.eqb_spec key k) as [->|Hk]; [simpl in Hn; tauto|].
    assert (Hn' : ~ In key (keys next)) by (simpl in Hn; tauto).
    specialize (IH Hn').
    destruct (put_chain key value next) as [[n r] made].
    simpl fst in *. rewrite del_chain_Entry.
    destruct (Z.eqb_spec k key) as [Heq|_]; [congruence|].
    rewrite IH. reflexivity.
Qed.

(** X7: [put] of a key that is stored nowhere returns [INT_MAX], adds one to
    [size], and links the new entry after the last entry of its bucket: the
    entries that were there keep their order. *)
Theorem put_new_key_appends (m : ts_hashmap) (k v : Z) :
  shape m ->
  ~ In k (stored_keys m) ->
  exists m1 t1,
    put m k v = Some (INT_MAX, m1, t1) /\
    size m1 = size m + 1 /\
    entries (slot m1 k) = entries (slot m k) ++ [(k, v)].
Proof.
  intros Hs Habs.
  assert (Hn : ~ In k (keys (slot m k))).
  { intros Hin. apply Habs, (slot_keys_stored m k k Hs Hin). }
  pose proof (put_eq m k v Hs) as Hput.
  pose proof (put_result_slot m k v Hs) as Hslot.
  pose proof (put_result_size m k v) as Hsize.
  pose proof (put_result_value m k v) as Hval.
  destruct (put_result m k v) as [[r m1] t1]. simpl in Hslot, Hsize, Hval.
  destruct (put_chain_absent k v (slot m k) Hn) as (Hmade & _ & _).
  rewrite (get_loop_absent _ _ _ Hn) in Hval. subst r.
  exists m1, t1. split; [exact Hput|]. split.
  - rewrite Hsize, Hmade. reflexivity.
  - rewrite Hslot. apply (put_chain_entries_absent k v _ Hn).
Qed.

Lemma put_new_key_appends_witness :
  exists m1 t1,
    put (mk_map [NULL; Entry 5 100 (Entry 9 200 NULL); NULL; NULL] 2 4 2) 13 300
      = Some (INT_MAX, m1, t1) /\
    size m1 = 2 + 1 /\
    entries (slot m1 13) = [(5, 100); (9, 200)] ++ [(13, 300)].
Proof.
  apply (put_new_key_appends
           (mk_map [NULL; Entry 5 100 (Entry 9 200 NULL); NULL; NULL] 2 4 2) 13 300).
  - unfold shape, INT_MAX. simpl. lia.
  - simpl. intros [H|[H|[]]]; discriminate H.
Defined.

(** X8: [put] of a key that is stored in the bucket of the key overwrites the
    value in place: it returns the value [get] returned, leaves [size] and
    the order of the keys of the chain as they were, and [get] then returns
    the new value. *)
Theorem put_stored_key_in_place (m : ts_hashmap) (k v : Z) :
  shape m ->
  In k (keys (slot m k)) ->
  exists old mg tg m1 t1 m2 t2,
    get m k = Some (old, mg, tg) /\
    put m k v = Some (old, m1, t1) /\
    size m1 = size m /\
    keys (slot m1 k) = keys (slot m k) /\
    get m1 k = Some (v, m2, t2).
Proof.
  intros Hs Hin. pose proof (put_eq m k v Hs) as Hput.
  pose proof (put_result_shape m k v Hs) as Hs1.
  pose proof (put_result_slot m k v Hs) as Hslot.
  pose proof (put_result_size m k v) as Hsize.
  pose proof (put_result_value m k v) as Hval.
  destruct (put_result m k v) as [[r m1] t1]. simpl in Hs1, Hslot, Hsize, Hval.
  destruct (put_chain_present k v (slot m k) Hin) as (Hmade & Hkeys & _).
  subst r. eexists _, _, _, m1, t1, _, _.
  split; [apply (get_eq m k Hs)|]. split; [exact Hput|]. split; [|split].
  - rewrite Hsize, Hmade. reflexivity.
  - rewrite Hslot. exact Hkeys.
  - rewrite (get_eq m1 k Hs1), Hslot, put_chain_get. reflexivity.
Qed.

Lemma put_stored_key_in_place_witness :
  exists old mg tg m1 t1 m2 t2,
    get (mk_map [NULL; Entry 5 100 (Entry 9 200 NULL); NULL; NULL] 2 4 2) 5
      = Some (old, mg, tg) /\
    put (mk_map [NULL; Entry 5 100 (Entry 9 200 NULL); NULL; NULL] 2 4 2) 5 7
      = Some (old, m1, t1) /\
    size m1 = 2 /\
    keys (slot m1 5) = [5; 9] /\
    get m1 5 = Some (7, m2, t2).
Proof.
  apply (put_stored_key_in_place
           (mk_map [NULL; Entry 5 100 (Entry 9 200 NULL); NULL; NULL] 2 4 2) 5 7).
  - unfold shape, INT_MAX. simpl. lia.
  - simpl. left. reflexivity.
Defined.

(** X9: [put] of a key that is stored nowhere followed by [del] of the same
    key gives back the table and [size] exactly as they were; only [numOps]
    has moved, by two. *)
Theorem put_new_then_del_restores (m : ts_hashmap) (k v : Z) :
  shape m ->
  ~ In k (stored_keys m) ->
  exists m1 t1 m2 t2,
    put m k v = Some (INT_MAX, m1, t1) /\
    del m1 k = Some (v, m2, t2) /\
    m2 = set_numOps m (numOps m + 2).
Proof.
  intros Hs Habs.
  assert (Hn : ~ In k (keys (slot m k))).
  { intros Hin. apply Habs, (slot_keys_stored m k k Hs Hin). }
  rewrite (put_eq m k v Hs). unfold put_result.
  pose proof (put_chain_returns k v (slot m k)) as Hret.
  pose proof (put_chain_absent k v (slot m k) Hn) as (Hmade & _ & _).
  pose proof (del_chain_put_chain k v (slot m k) Hn) as Hdp.
  destruct (put_chain k v (slot m k)) as [[c' r] made].
  simpl in Hret, Hmade, Hdp. subst made.
  rewrite (get_loop_absent _ _ _ Hn) in Hret. subst r.
  eexists _, _, _, _. split; [reflexivity|].
  rewrite (del_eq _ k (shape_update m _ c' _ _ Hs)). unfold del_result.
  change (bucket_index {| table := <[Z.to_nat (bucket_index m k):=c']> (table m);
                          numOps := numOps m + 1; capacity := capacity m;
                          size := size m + 1 |} k) with (bucket_index m k).
  rewrite (slot_update m k c' _ _ Hs), Hdp. split; [reflexivity|].
  unfold set_numOps. simpl. f_equal; try lia.
  rewrite list_insert_insert_eq. apply list_insert_id, (slot_lookup m Hs).
Qed.

Lemma put_new_then_del_restores_witness :
  exists m1 t1 m2 t2,
    put (mk_map [NULL; Entry 5 100 (Entry 9 200 NULL); NULL; NULL] 2 4 2) 13 300
      = Some (INT_MAX, m1, t1) /\
    del m1 13 = Some (300, m2, t2) /\
    m2 = mk_map [NULL; Entry 5 100 (Entry 9 200 NULL); NULL; NULL] 4 4 2.
Proof.
  apply (put_new_then_del_restores
           (mk_map [NULL; Entry 5 100 (Entry 9 200 NULL); NULL; NULL] 2 4 2) 13 300).
  - unfold shape, INT_MAX. simpl. lia.
  - simpl. intros [H|[H|[]]]; discriminate H.
Defined.

(** ** Removing a stored key *)

(** X10: in a reachable map, [del] of a stored key returns the value [get]
    returned, takes one off [size] and leaves the key stored nowhere; a
    second [del] of the key returns [INT_MAX] and changes neither the table
    nor [size]. *)
Theorem del_stored_key (m : ts_hashmap) (k : Z) :
  reachable m ->
  In k (stored_keys m) ->
  exists r mg tg m1 t1 m2 t2,
    get m k = Some (r, mg, tg) /\
    del m k = Some (r, m1, t1) /\
    size m1 = size m - 1 /\
    ~ In k (stored_keys m1) /\
    del m1 k = Some (INT_MAX, m2, t2) /\
    table m2 = table m1 /\ size m2 = size m1.
Proof.
  intros Hreach Hin. pose proof (reachable_invariant m Hreach) as Hinv.
  pose proof Hinv as (Hs & Hok & _).
  pose proof (stored_keys_slot m k Hok Hin) as Hslotin.
  pose proof (del_eq m k Hs) as Hdel.
  pose proof (del_result_slot m k Hs) as Hslot1.
  pose proof (del_result_size m k) as Hsize1.
  pose proof (del_result_value m k) as Hval1. rewrite del_chain_returns in Hval1.
  destruct (del_result m k) as [[r m1] t1]. simpl in Hslot1, Hsize1, Hval1.
  destruct (del_invariant m k r m1 t1 Hinv Hdel) as (Hs1 & Hok1 & _).
  destruct (del_chain_present k (slot m k) Hslotin) as (Hdeleted & _ & _).
  destruct (del_chain_NoDup k (slot m k)) as [_ Hgone].
  { apply (Hok _ _ (slot_lookup m Hs k)). }
  rewrite <- Hslot1 in Hgone. subst r.
  eexists _, _, _, m1, t1, _, _.
  split; [apply (get_eq m k Hs)|]. split; [exact Hdel|]. split; [|split].
  - rewrite Hsize1, Hdeleted. reflexivity.
  - intros H. apply Hgone, (stored_keys_slot m1 k Hok1 H).
  - rewrite (del_eq m1 k Hs1). unfold del_result.
    rewrite (del_chain_absent k _ Hgone). split; [reflexivity|].
    split; [|reflexivity]. simpl. apply list_insert_id, (slot_lookup m1 Hs1).
Qed.

Lemma del_stored_key_witness :
  exists r mg tg m1 t1 m2 t2,
    get (mk_map [NULL; Entry 5 100 (Entry 9 200 NULL); NULL; NULL] 2 4 2) 9
      = Some (r, mg, tg) /\
    del (mk_map [NULL; Entry 5 100 (Entry 9 200 NULL); NULL; NULL] 2 4 2) 9
      = Some (r, m1, t1) /\
    size m1 = 2 - 1 /\
    ~ In 9 (stored_keys m1) /\
    del m1 9 = Some (INT_MAX, m2, t2) /\
    table m2 = table m1 /\ size m2 = size m1.
Proof.
  apply (del_stored_key
           (mk_map [NULL; Entry 5 100 (Entry 9 200 NULL); NULL; NULL] 2 4 2) 9).
  - exact reachable_two_keys.
  - simpl. right. left. reflexivity.
Defined.

(** ** The table is never resized *)

Lemma call_keeps_dimensions (m : ts_hashmap) (o : op) :
  shape m ->
  exists r m' t,
    call m o = Some (r, m', t) /\ shape m' /\
    capacity m' = capacity m /\ length (table m') = length (table m).
Proof.
  intros Hs. destruct o as [key | key value | key]; simpl.
  - rewrite (get_eq m key Hs). eexists _, _, _. split; [reflexivity|]. auto.
  - rewrite (put_eq m key value Hs).
    pose proof (put_result_shape m key value Hs) as Hs'.
    unfold put_result in *.
    destruct (put_chain key value (slot m key)) as [[c' r] made].
    eexists _, _, _. split; [reflexivity|]. split; [exact Hs'|].
    simpl. rewrite length_insert. auto.
  - rewrite (del_eq m key Hs).
    pose proof (del_result_shape m key Hs) as Hs'.
    unfold del_result in *.
    destruct (del_chain key (slot m key)) as [[c' r] deleted].
    eexists _, _, _. split; [reflexivity|]. split; [exact Hs'|].
    simpl. rewrite length_insert. auto.
Qed.

(** X11: any sequence of calls on a well-shaped map runs to completion and
    leaves the capacity and the number of slots of the table as they were:
    no call resizes the table, however many entries it holds. *)
Theorem run_keeps_dimensions (m : ts_hashmap) (ops : list op) :
  shape m ->
  exists m',
    run m ops = Some m' /\
    capacity m' = capacity m /\ length (table m') = length (table m).
Proof.
  revert m. induction ops as [|o rest IH]; intros m Hs.
  - exists m. auto.
  - destruct (call_keeps_dimensions m o Hs) as (r & m1 & t & Hcall & Hs1 & Hc1 & Hl1).
    destruct (IH m1 Hs1) as (m' & Hrun & Hc & Hl).
    exists m'. simpl run. rewrite Hcall. split; [exact Hrun|].
    split; congruence.
Qed.

Lemma run_keeps_dimensions_witness :
  exists m',
    run (mk_map [NULL; Entry 5 100 (Entry 9 200 NULL); NULL; NULL] 2 4 2)
        [Put 13 1; Put 17 2; Put 21 3; Del 5; Get 9] = Some m' /\
    capacity m' = 4 /\ length (table m') = 4%nat.
Proof.
  apply (run_keeps_dimensions
           (mk_map [NULL; Entry 5 100 (Entry 9 200 NULL); NULL; NULL] 2 4 2)
           [Put 13 1; Put 17 2; Put 21 3; Del 5; Get 9]).
  unfold shape, INT_MAX. simpl. lia.
Defined.

(** ** Distinct keys and [size] *)

Lemma chain_length_keys (c : chain) : chain_length c = Z.of_nat (length (keys c)).
Proof. induction c as [|k v next IH]; simpl length; simpl chain_length; lia. Qed.

Lemma total_entries_keys (t : list chain) :
  total_entries t = Z.of_nat (length (concat (List.map keys t))).
Proof.
  induction t as [|c rest IH]; [reflexivity|].
  simpl. rewrite length_app, chain_length_keys, IH. lia.
Qed.

Lemma keys_NoDup_across (f : Z -> Z) (t : list chain) (offset : nat) :
  (forall (i : nat) c,
     t !! i = Some c ->
     List.NoDup (keys c) /\ forall k, In k (keys c) -> f k = Z.of_nat (offset + i)) ->
  List.NoDup (concat (List.map keys t)).
Proof.
  revert offset. induction t as [|c rest IH]; intros offset Hok; [constructor|].
  simpl. apply List.NoDup_app.
  - apply (Hok 0%nat c eq_refl).
  - apply (IH (S offset)). intros i c' Hi.
    destruct (Hok (S i) c' Hi) as [Hnd Hidx]. split; [exact Hnd|].
    intros k Hk. rewrite (Hidx k Hk). lia.
  - intros a Ha Hrest. apply in_concat in Hrest as (l & Hl & Hal).
    apply in_map_iff in Hl as (c' & <- & Hc').
    apply list_elem_of_In, list_elem_of_lookup in Hc' as [i Hi].
    pose proof (proj2 (Hok 0%nat c eq_refl) a Ha) as H0.
    pose proof (proj2 (Hok (S i) c' Hi) a Hal) as H1. lia.
Qed.

(** X12: in a reachable map no key is stored twice, in one chain or in two,
    and [size] is the number of distinct keys stored. *)
Theorem reachable_distinct_keys (m : ts_hashmap) :
  reachable m ->
  List.NoDup (stored_keys m) /\
  size m = Z.of_nat (length (stored_keys m)) /\
  0 <= size m.
Proof.
  intros Hreach. destruct (reachable_invariant m Hreach) as (Hs & Hok & Hsize).
  assert (Hlen : size m = Z.of_nat (length (stored_keys m))).
  { rewrite Hsize. apply total_entries_keys. }
  split; [|split; [exact Hlen | lia]].
  apply (keys_NoDup_across (bucket_index m) (table m) 0). intros i c Hi.
  destruct (Hok i c Hi) as [Hnd Hidx]. split; [exact Hnd|].
  intros k Hk. rewrite (Hidx k Hk). lia.
Qed.

Lemma reachable_distinct_keys_witness :
  List.NoDup [5; 9] /\
  size (mk_map [NULL; Entry 5 100 (Entry 9 200 NULL); NULL; NULL] 2 4 2)
    = Z.of_nat (length [5; 9]) /\
  0 <= size (mk_map [NULL; Entry 5 100 (Entry 9 200 NULL); NULL; NULL] 2 4 2).
Proof.
  apply (reachable_distinct_keys
           (mk_map [NULL; Entry 5 100 (Entry 9 200 NULL); NULL; NULL] 2 4 2)).
  exact reachable_two_keys.
Defined.

(** ** Every guard is released *)

(** X13: on a well-shaped map every call of [get], [put] and [del] ends with
    no guard held: each guard it acquires is released on every path, the
    early returns of [del] included. *)
Theorem call_releases_every_guard (m : ts_hashmap) (o : op) :
  shape m ->
  exists r m' t, call m o = Some (r, m', t) /\ held_after [] t = [].
Proof.
  intros Hs. destruct o as [key | key value | key]; simpl.
  - rewrite (get_eq m key Hs). eexists _, _, _. split; [reflexivity|].
    unfold held_after. simpl. rewrite Z.eqb_refl. reflexivity.
  - rewrite (put_eq m key value Hs). unfold put_result.
    destruct (put_chain key value (slot m key)) as [[c' r] made].
    eexists _, _, _. split; [reflexivity|].
    unfold held_after. destruct made; simpl; rewrite Z.eqb_refl; reflexivity.
  - rewrite (del_eq m key Hs). unfold del_result.
    destruct (del_chain key (slot m key)) as [[c' r] deleted].
    eexists _, _, _. split; [reflexivity|].
    unfold held_after, del_trace. destruct (slot m key) as [|k v next].
    + simpl. rewrite Z.eqb_refl. reflexivity.
    + destruct (k =? key); [simpl; rewrite Z.eqb_refl; reflexivity|].
      destruct deleted; simpl; rewrite Z.eqb_refl; reflexivity.
Qed.

Lemma call_releases_every_guard_witness :
  exists r m' t,
    call (mk_map [NULL; Entry 5 100 (Entry 9 200 NULL); NULL; NULL] 2 4 2) (Del 2)
      = Some (r, m', t) /\
    held_after [] t = [].
Proof.
  apply (call_releases_every_guard
           (mk_map [NULL; Entry 5 100 (Entry 9 200 NULL); NULL; NULL] 2 4 2) (Del 2)).
  unfold shape, INT_MAX. simpl. lia.
Defined.

Lemma get_one_guard_witness :
  exists r m' t,
    get (mk_map [NULL; Entry 5 100 (Entry 9 200 NULL); NULL; NULL] 2 4 2) 9
      = Some (r, m', t) /\
    one_guard_at_a_time t = true.
Proof.
  apply (get_one_guard
           (mk_map [NULL; Entry 5 100 (Entry 9 200 NULL); NULL; NULL] 2 4 2) 9).
  unfold shape, INT_MAX. simpl. lia.
Defined.

Lemma put_one_guard_witness :
  exists r m' t,
    put (mk_map [NULL; Entry 5 100 (Entry 9 200 NULL); NULL; NULL] 2 4 2) 13 1
      = Some (r, m', t) /\
    one_guard_at_a_time t = true.
Proof.
  apply (put_one_guard
           (mk_map [NULL; Entry 5 100 (Entry 9 200 NULL); NULL; NULL] 2 4 2) 13 1).
  unfold shape, INT_MAX. simpl. lia.
Defined.

Lemma del_one_guard_witness :
  exists r m' t,
    del (mk_map [NULL; Entry 5 100 (Entry 9 200 NULL); NULL; NULL] 2 4 2) 5
      = Some (r, m', t) /\
    one_guard_at_a_time t = true.
Proof.
  apply (del_one_guard
           (mk_map [NULL; Entry 5 100 (Entry 9 200 NULL); NULL; NULL] 2 4 2) 5).
  - unfold shape, INT_MAX. simpl. lia.
  - intros k0 v0 next H. injection H as <- _ _. left. reflexivity.
Defined.

Lemma del_mid_chain_two_guards_witness :
  exists r m' t,
    del (mk_map [NULL; Entry 5 100 (Entry 9 200 NULL); NULL; NULL] 2 4 2) 9
      = Some (r, m', t) /\
    one_guard_at_a_time t = false.
Proof.
  apply (del_mid_chain_two_guards
           (mk_map [NULL; Entry 5 100 (Entry 9 200 NULL); NULL; NULL] 2 4 2)
           9 5 100 (Entry 9 200 NULL)).
  - unfold shape, INT_MAX. simpl. lia.
  - reflexivity.
  - lia.
  - simpl. left. reflexivity.
Defined.

(** ** A freshly constructed map *)

Lemma concat_entries_replicate (n : nat) :
  concat (List.map entries (replicate n NULL)) = [].
Proof. induction n as [|n IH]; simpl; [reflexivity | exact IH]. Qed.

Lemma concat_entries_insert_replicate (n i : nat) (c : chain) :
  (i < n)%nat ->
  concat (List.map entries (<[i := c]> (replicate n NULL))) = entries c.
Proof.
  revert i. induction n as [|n IH]; intros i Hi; [lia|].
  destruct i as [|i]; simpl.
  - rewrite concat_entries_replicate. apply app_nil_r.
  - apply IH. lia.
Qed.

Lemma concat_keys_replicate (n : nat) :
  concat (List.map keys (replicate n NULL)) = [].
Proof. induction n as [|n IH]; simpl; [reflexivity | exact IH]. Qed.

(** X14: on the map [initmap] returns for a positive capacity, every [get]
    and every [del] misses, [del] leaving [size] at 0, and the first [put]
    returns [INT_MAX] and leaves a map of [size] 1 whose only entry is the
    pair just put. *)
Theorem fresh_map_is_empty (c k v : Z) :
  1 <= c <= INT_MAX ->
  exists m0 mg tg md td mp tp,
    initmap c = Some m0 /\
    stored_entries m0 = [] /\
    get m0 k = Some (INT_MAX, mg, tg) /\
    del m0 k = Some (INT_MAX, md, td) /\ size md = 0 /\ table md = table m0 /\
    put m0 k v = Some (INT_MAX, mp, tp) /\ size mp = 1 /\
    stored_entries mp = [(k, v)].
Proof.
  intros Hc. pose (m0 := mk_map (replicate (Z.to_nat c) NULL) 0 c 0).
  destruct (initmap_invariant c m0 Hc eq_refl) as (Hs & _ & _).
  assert (Hslot : slot m0 k = NULL).
  { pose proof (slot_lookup m0 Hs k) as Hl. simpl in Hl.
    apply lookup_replicate in Hl as [Hl _]. exact Hl. }
  pose proof (bucket_index_lt_length m0 Hs k) as Hlt.
  simpl in Hlt. rewrite length_replicate in Hlt.
  exists m0. eexists _, _, _, _, _, _. split; [reflexivity|].
  split; [apply concat_entries_replicate|].
  split; [rewrite (get_eq m0 k Hs), Hslot; reflexivity|].
  rewrite (del_eq m0 k Hs), (put_eq m0 k v Hs). unfold del_result, put_result.
  rewrite Hslot. simpl del_chain. simpl put_chain. cbv beta iota.
  split; [reflexivity|]. split; [reflexivity|].
  split.
  { simpl. apply list_insert_id. rewrite <- Hslot at 2.
    apply (slot_lookup m0 Hs k). }
  split; [reflexivity|]. split; [reflexivity|].
  unfold stored_entries. simpl table.
  apply (concat_entries_insert_replicate _ _ (Entry k v NULL) Hlt).
Qed.

Lemma fresh_map_is_empty_witness :
  exists m0 mg tg md td mp tp,
    initmap 4 = Some m0 /\
    stored_entries m0 = [] /\
    get m0 5 = Some (INT_MAX, mg, tg) /\
    del m0 5 = Some (INT_MAX, md, td) /\ size md = 0 /\ table md = table m0 /\
    put m0 5 100 = Some (INT_MAX, mp, tp) /\ size mp = 1 /\
    stored_entries mp = [(5, 100)].
Proof.
  apply (fresh_map_is_empty 4 5 100). unfold INT_MAX. lia.
Defined.

(** ** [printmap] *)

Lemma printed_entries_chain (c : chain) (rest : list printf_call) :
  printed_entries (print_chain c ++ rest) = entries c ++ printed_entries rest.
Proof.
  induction c as [|k v next IH]; [reflexivity|].
  destruct next as [|k' v' n']; [reflexivity|].
  change (printed_entries (print_chain (Entry k v (Entry k' v' n')) ++ rest))
    with ((k, v) :: printed_entries (print_chain (Entry k' v' n') ++ rest)).
  rewrite IH. reflexivity.
Qed.

Lemma printed_indices_chain (c : chain) (rest : list printf_call) :
  printed_indices (print_chain c ++ rest) = printed_indices rest.
Proof.
  induction c as [|k v next IH]; [reflexivity|].
  destruct next as [|k' v' n']; [reflexivity|].
  change (printed_indices (print_chain (Entry k v (Entry k' v' n')) ++ rest))
    with (printed_indices (print_chain (Entry k' v' n') ++ rest)).
  rewrite IH. reflexivity.
Qed.

Lemma printed_newlines_chain (c : chain) (rest : list printf_call) :
  printed_newlines (print_chain c ++ rest) = printed_newlines rest.
Proof.
  induction c as [|k v next IH]; [reflexivity|].
  destruct next as [|k' v' n']; [reflexivity|].
  change (printed_newlines (print_chain (Entry k v (Entry k' v' n')) ++ rest))
    with (printed_newlines (print_chain (Entry k' v' n') ++ rest)).
  rewrite IH. reflexivity.
Qed.

Lemma print_table_entries (t : list chain) (i : Z) :
  printed_entries (print_table t i) = concat (List.map entries t).
Proof.
  revert i. induction t as [|c rest IH]; intros i; [reflexivity|].
  simpl. rewrite printed_entries_chain. simpl. rewrite IH. reflexivity.
Qed.

Lemma print_table_indices (t : list chain) (i : Z) :
  printed_indices (print_table t i) = seqZ i (Z.of_nat (length t)).
Proof.
  revert i. induction t as [|c rest IH]; intros i; [reflexivity|].
  simpl print_table. simpl printed_indices. rewrite printed_indices_chain.
  simpl printed_indices. rewrite IH. simpl length.
  rewrite (seqZ_cons i (Z.of_nat (S (length rest)))) by lia.
  f_equal. f_equal; lia.
Qed.

Lemma print_table_newlines (t : list chain) (i : Z) :
  printed_newlines (print_table t i) = Z.of_nat (length t).
Proof.
  revert i. induction t as [|c rest IH]; intros i; [reflexivity|].
  simpl print_table. simpl printed_newlines. rewrite printed_newlines_chain.
  simpl printed_newlines. rewrite IH. simpl length. lia.
Qed.

Lemma printmap_from_table (m : ts_hashmap) (t pre : list chain) :
  table m = pre ++ t ->
  printmap_from m (Z.of_nat (length pre)) (length t)
  = Some (print_table t (Z.of_nat (length pre))).
Proof.
  revert pre. induction t as [|c rest IH]; intros pre Ht; [reflexivity|].
  simpl. rewrite Nat2Z.id, Ht, list_lookup_middle by reflexivity.
  replace (Z.of_nat (length pre) + 1) with (Z.of_nat (length (pre ++ [c])))
    by (rewrite length_app; simpl; lia).
  rewrite (IH (pre ++ [c])); [reflexivity|].
  rewrite Ht, <- app_assoc. reflexivity.
Qed.

(** X15: on a well-shaped map [printmap] prints one row per bucket, numbered
    0 to capacity - 1 in order, and the pairs it prints are the stored
    entries, each once, bucket after bucket and in chain order. *)
Theorem printmap_prints_every_entry (m : ts_hashmap) :
  shape m ->
  exists out,
    printmap m = Some out /\
    printed_entries out = stored_entries m /\
    printed_indices out = seqZ 0 (capacity m) /\
    printed_newlines out = capacity m.
Proof.
  intros [Hc Hlen]. unfold printmap.
  rewrite <- Hlen, Nat2Z.id.
  pose proof (printmap_from_table m (table m) [] eq_refl) as Hrows.
  change (Z.of_nat (length (@nil chain))) with 0 in Hrows. rewrite Hrows.
  eexists. split; [reflexivity|].
  split; [apply print_table_entries|].
  split; [apply print_table_indices | apply print_table_newlines].
Qed.

Lemma printmap_prints_every_entry_witness :
  exists out,
    printmap (mk_map [NULL; Entry 5 100 (Entry 9 200 NULL); NULL; NULL] 2 4 2)
      = Some out /\
    printed_entries out = [(5, 100); (9, 200)] /\
    printed_indices out = [0; 1; 2; 3] /\
    printed_newlines out = 4.
Proof.
  apply (printmap_prints_every_entry
           (mk_map [NULL; Entry 5 100 (Entry 9 200 NULL); NULL; NULL] 2 4 2)).
  unfold shape, INT_MAX. simpl. lia.
Defined.

(** ** Teardown *)

Lemma freeChain_Entry (k v : Z) (next : chain) :
  freeChain (Entry k v next)
  = Some (List.map free_entry (rev (entries (Entry k v next)))).
Proof.
  revert k v. induction next as [|k' v' next' IH]; intros k v; [reflexivity|].
  change (freeChain (Entry k v (Entry k' v' next')))
    with (match freeChain (Entry k' v' next') with
          | None => None
          | Some t => Some (t ++ [Free (entry_block k v)])
          end).
  rewrite IH. change (entries (Entry k v (Entry k' v' next')))
    with ((k, v) :: entries (Entry k' v' next')).
  simpl rev at 2. rewrite map_app. reflexivity.
Qed.

(** X16: [freeChain] is undefined on a null pointer; on a chain it frees
    every entry exactly once, from the last entry back to the head, and does
    nothing else. *)
Theorem freeChain_frees_from_the_tail (k v : Z) (next : chain) :
  freeChain NULL = None /\
  freeChain (Entry k v next)
  = Some (List.map free_entry (rev (entries (Entry k v next)))).
Proof. split; [reflexivity | apply freeChain_Entry]. Qed.

Lemma freed_entries_app (l : list (Z * Z)) (rest : list mem_event) :
  freed_entries (List.map free_entry l ++ rest) = l ++ freed_entries rest.
Proof.
  induction l as [|[a b] l IH]; [reflexivity|]. simpl. rewrite IH. reflexivity.
Qed.

Lemma destroyed_mutexes_app (l : list (Z * Z)) (rest : list mem_event) :
  destroyed_mutexes (List.map free_entry l ++ rest) = destroyed_mutexes rest.
Proof. induction l as [|[a b] l IH]; [reflexivity | exact IH]. Qed.

Lemma freed_mutexes_app (l : list (Z * Z)) (rest : list mem_event) :
  freed_mutexes (List.map free_entry l ++ rest) = freed_mutexes rest.
Proof. induction l as [|[a b] l IH]; [reflexivity | exact IH]. Qed.

Lemma free_table_entries (t : list chain) (i : Z) (tail : list mem_event) :
  Permutation (freed_entries (free_table t i ++ tail))
              (concat (List.map entries t) ++ freed_entries tail).
Proof.
  revert i. induction t as [|c rest IH]; intros i; [reflexivity|].
  simpl. rewrite <- app_assoc, freed_entries_app. simpl.
  rewrite <- app_assoc. apply Permutation_app.
  - symmetry. apply Permutation_rev.
  - apply IH.
Qed.

Lemma free_table_destroyed (t : list chain) (i : Z) (tail : list mem_event) :
  destroyed_mutexes (free_table t i ++ tail)
  = List.map bucketLock (seqZ i (Z.of_nat (length t))) ++ destroyed_mutexes tail.
Proof.
  revert i. induction t as [|c rest IH]; intros i; [reflexivity|].
  simpl free_table. rewrite <- app_assoc, destroyed_mutexes_app.
  cbn [app destroyed_mutexes]. rewrite IH. cbn [length].
  rewrite (seqZ_cons i (Z.of_nat (S (length rest)))) by lia.
  replace (Z.succ i) with (i + 1) by lia.
  replace (Z.pred (Z.of_nat (S (length rest)))) with (Z.of_nat (length rest)) by lia.
  reflexivity.
Qed.

Lemma free_table_freed (t : list chain) (i : Z) (tail : list mem_event) :
  freed_mutexes (free_table t i ++ tail)
  = List.map bucketLock (seqZ i (Z.of_nat (length t))) ++ freed_mutexes tail.
Proof.
  revert i. induction t as [|c rest IH]; intros i; [reflexivity|].
  simpl free_table. rewrite <- app_assoc, freed_mutexes_app.
  cbn [app freed_mutexes]. rewrite IH. cbn [length].
  rewrite (seqZ_cons i (Z.of_nat (S (length rest)))) by lia.
  replace (Z.succ i) with (i + 1) by lia.
  replace (Z.pred (Z.of_nat (S (length rest)))) with (Z.of_nat (length rest)) by lia.
  reflexivity.
Qed.

Lemma freeMap_from_table (m : ts_hashmap) (t pre : list chain) :
  table m = pre ++ t ->
  freeMap_from m (Z.of_nat (length pre)) (length t)
  = Some (free_table t (Z.of_nat (length pre))).
Proof.
  revert pre. induction t as [|c rest IH]; intros pre Ht; [reflexivity|].
  simpl. rewrite Nat2Z.id, Ht, list_lookup_middle by reflexivity.
  replace (Z.of_nat (length pre) + 1) with (Z.of_nat (length (pre ++ [c])))
    by (rewrite length_app; simpl; lia).
  rewrite (IH (pre ++ [c])) by (rewrite Ht, <- app_assoc; reflexivity).
  destruct c as [|k v next]; [reflexivity|].
  rewrite freeChain_Entry. reflexivity.
Qed.

Lemma total_entries_stored (t : list chain) :
  total_entries t = Z.of_nat (length (concat (List.map entries t))).
Proof.
  induction t as [|c rest IH]; [reflexivity|].
  simpl. rewrite length_app, IH.
  assert (Hc : chain_length c = Z.of_nat (length (entries c))).
  { clear. induction c as [|k v next IHc]; simpl length; simpl chain_length; lia. }
  lia.
Qed.

(** X17: on a reachable map [freeMap] is defined, never calls [freeChain] on
    a null pointer, frees every stored entry exactly once and nothing else
    as an entry ([size] entries in all), and destroys, then frees, the mutex
    of every bucket and the two counter mutexes, each once. *)
Theorem freeMap_releases_everything (m : ts_hashmap) :
  reachable m ->
  exists t,
    freeMap m = Some t /\
    Permutation (freed_entries t) (stored_entries m) /\
    Z.of_nat (length (freed_entries t)) = size m /\
    destroyed_mutexes t = all_guards (capacity m) /\
    freed_mutexes t = all_guards (capacity m).
Proof.
  intros Hreach. destruct (reachable_invariant m Hreach) as ([Hc Hlen] & _ & Hsize).
  unfold freeMap. rewrite <- Hlen, Nat2Z.id.
  pose proof (freeMap_from_table m (table m) [] eq_refl) as Hrows.
  change (Z.of_nat (length (@nil chain))) with 0 in Hrows. rewrite Hrows.
  eexists. split; [reflexivity|].
  assert (Hperm : Permutation
            (freed_entries
               (free_table (table m) 0 ++
                [Free table_block; Free bucketLocks_block; MutexDestroy opLock;
                 MutexDestroy sizeLock; Free (mutex_block opLock);
                 Free (mutex_block sizeLock); Free map_block]))
            (stored_entries m)).
  { rewrite free_table_entries. simpl. rewrite app_nil_r. reflexivity. }
  split; [exact Hperm|]. split; [|split].
  - rewrite (Permutation_length Hperm), Hsize. symmetry. apply total_entries_stored.
  - rewrite free_table_destroyed. reflexivity.
  - rewrite free_table_freed. reflexivity.
Qed.

Lemma freeMap_releases_everything_witness :
  exists t,
    freeMap (mk_map [NULL; Entry 5 100 (Entry 9 200 NULL); NULL; NULL] 2 4 2)
      = Some t /\
    Permutation (freed_entries t) [(5, 100); (9, 200)] /\
    Z.of_nat (length (freed_entries t)) = 2 /\
    destroyed_mutexes t = all_guards 4 /\
    freed_mutexes t = all_guards 4.
Proof.
  apply (freeMap_releases_everything
           (mk_map [NULL; Entry 5 100 (Entry 9 200 NULL); NULL; NULL] 2 4 2)).
  exact reachable_two_keys.
Defined.
